(** * ahawker/stdlib: the error model of [errors.go]

    A shallow embedding of [Error], [errorChain] and [*ErrorGroup] from
    [src/stdlib/errors.go], with the parts of the Go standard library the
    file calls ([errors.As], [errors.Is], [reflect.DeepEqual], [append],
    [copy], [make]) written out over the values this package handles.

    Go values that are shared and mutated (the backing arrays of
    [[]Error] slices, the [ErrorGroup] structs behind [*ErrorGroup]
    pointers) live in an explicit [store]; functions that allocate or
    write thread the store, functions that only read take it as an
    argument.  A Go panic is the result [Panic]; recursion that follows
    pointers through the store takes a [fuel] argument and answers
    [OutOfFuel] when it runs dry. *)

From Stdlib Require Import String Ascii ZArith NArith List Bool Lia.
From stdpp Require Import base list strings gmap.

Set Warnings "-register-all".
Local Open Scope string_scope.
Local Open Scope nat_scope.
Local Open Scope list_scope.

(** ** Results: a value, a panic, or no answer within the fuel given *)

Inductive res (A : Type) : Type :=
| Ok (a : A)
| Panic
| OutOfFuel.
Arguments Ok {A} a.
Arguments Panic {A}.
Arguments OutOfFuel {A}.

Definition bind {A B : Type} (m : res A) (k : A -> res B) : res B :=
  match m with
  | Ok a => k a
  | Panic => Panic
  | OutOfFuel => OutOfFuel
  end.

Notation "'let*' p := m 'in' k" := (bind m (fun p => k))
  (at level 10, p pattern, m at level 200, k at level 200, only parsing).

(** A store lookup that cannot fail in Go (every pointer is valid there)
    panics in the model when the address is not allocated. *)
Definition must {A : Type} (o : option A) : res A :=
  match o with
  | Some a => Ok a
  | None => Panic
  end.

(** ** Data model *)

(** Modelled from the spec: the type [Bitmask] is declared outside the
    files at hand.  The spec describes it as a set of independent boolean
    attributes packed into one integer; the functions modelled here build
    its values from the constants below and compare them with [==]. *)
Definition Bitmask := N.

(** A Go slice of immutable elements that is never written through:
    [None] is the nil slice, [Some l] a non-nil slice holding [l]. *)
Definition valslice (A : Type) := option (list A).

Definition valslice_elems {A : Type} (s : valslice A) : list A :=
  match s with
  | Some l => l
  | None => []
  end.

(** [append(s, xs...)]: with nothing to add the slice is returned as it
    is (a nil slice stays nil). *)
Definition valslice_append {A : Type} (s : valslice A) (xs : list A) : valslice A :=
  match xs with
  | [] => s
  | _ => Some (valslice_elems s ++ xs)
  end.

Record DebugExtras : Type := mkDebugExtras { StackTrace : string }.

Record Link : Type := mkLink { URL : string; Description : string }.

Record HelpExtras : Type := mkHelpExtras { Links : valslice Link }.

(** [time.Duration] is an [int64]. *)
Record RetryExtras : Type := mkRetryExtras { Delay : Z }.

Record ErrorExtras : Type := mkErrorExtras {
  Debug : DebugExtras;
  Help : HelpExtras;
  Retry : RetryExtras;
  Tags : valslice string }.

(** Heap addresses.  [[]Error] slices are headers into backing arrays of
    the store.  The capacity of a slice is what is left of its array after
    [s_off]: the package only builds slices with [make], [append] and
    [s[1:]], for which that is exact. *)
Abbreviation addr := nat (only parsing).

Record slice : Type := mkSlice {
  s_arr : option addr;
  s_off : nat;
  s_len : nat }.

Definition nil_slice : slice := mkSlice None 0 0.

(** The struct [Error], over the type [E] of the values its [Wrapped]
    field can hold. *)
Record ErrorOf (E : Type) : Type := mkError {
  Code : string;
  Extras : ErrorExtras;
  Flags : Bitmask;
  Message : string;
  Namespace : string;
  Wrapped : option E }.
Arguments mkError {E}.
Arguments Code {E}.
Arguments Extras {E}.
Arguments Flags {E}.
Arguments Message {E}.
Arguments Namespace {E}.
Arguments Wrapped {E}.

(** Non-nil values of the interface type [error], by dynamic type:
    - [EError e]: the struct type [Error];
    - [EGroup p]: the pointer type [*ErrorGroup] ([None] is a nil pointer
      stored in a non-nil interface);
    - [EChain c]: the slice type [errorChain];
    - [EForeign id msg cause]: an error of a type declared elsewhere, as
      built by [errors.New] or [fmt.Errorf]: a pointer [id], the text its
      [Error()] method returns, and the cause its [Unwrap()] returns, if
      any.  Foreign types with [As] or [Is] methods of their own, or with
      [Unwrap() []error], are outside the model, and so is [*Error].
    The nil interface is [None : option error]. *)
Inductive error : Type :=
| EError (e : ErrorOf error)
| EGroup (p : option addr)
| EChain (c : slice)
| EForeign (id : nat) (msg : string) (cause : option error).

Definition Error : Type := ErrorOf error.

Definition set_Wrapped (e : Error) (w : option error) : Error :=
  {| Code := Code e;
     Extras := Extras e;
     Flags := Flags e;
     Message := Message e;
     Namespace := Namespace e;
     Wrapped := w |}.

(** [type ErrorGroupFormatter func([]Error) string]: the nil func, the
    package's default, or a function of the caller (taken as a function
    of the element sequence). *)
Inductive formatter : Type :=
| FmtNil
| FmtDefault
| FmtCustom (f : list Error -> string).

Record ErrorGroup : Type := mkErrorGroup {
  Errors : slice;
  Formatter : formatter }.

Record store : Type := mkStore {
  arrays : list (list Error);
  groups : list ErrorGroup }.

Definition empty_store : store := mkStore [] [].

(** ** Constants *)

Definition ErrorNamespaceDefault : string := "stdlibx-go".

(** The const block starts with [ErrorNamespaceDefault], so [iota] is 1 at
    [ErrorFlagUnknown]. *)
Definition ErrorFlagUnknown : Bitmask := N.shiftl 1 1.
Definition ErrorFlagRetryable : Bitmask := N.shiftl 1 2.
Definition ErrorFlagTimeout : Bitmask := N.shiftl 1 3.

Definition ErrorExtras_zero : ErrorExtras :=
  {| Debug := {| StackTrace := "" |};
     Help := {| Links := None |};
     Retry := {| Delay := 0%Z |};
     Tags := None |}.

(** The zero value [Error{}]. *)
Definition Error_zero : Error :=
  {| Code := "";
     Extras := ErrorExtras_zero;
     Flags := 0%N;
     Message := "";
     Namespace := "";
     Wrapped := None |}.

Definition ErrUndefined : Error :=
  {| Code := "undefined";
     Extras := ErrorExtras_zero;
     Flags := ErrorFlagUnknown;
     Message := "wrapped the following error which is not well-defined";
     Namespace := ErrorNamespaceDefault;
     Wrapped := None |}.

(** ** The store: arrays, slices, group structs *)

(** [len(s)] is [s_len s]; [cap(s)]: *)
Definition slice_cap (σ : store) (s : slice) : nat :=
  match s_arr s with
  | Some a =>
      match arrays σ !! a with
      | Some arr => length arr - s_off s
      | None => 0
      end
  | None => 0
  end.

(** The elements a slice holds.  A header that does not fit its array
    cannot arise in Go; the model answers [Panic] for it. *)
Definition slice_elems (σ : store) (s : slice) : res (list Error) :=
  match s_arr s with
  | None => if s_len s =? 0 then Ok [] else Panic
  | Some a =>
      let* arr := must (arrays σ !! a) in
      if s_off s + s_len s <=? length arr
      then Ok (take (s_len s) (drop (s_off s) arr))
      else Panic
  end.

(** [s[i]]: an index out of range panics. *)
Definition slice_index (σ : store) (s : slice) (i : nat) : res Error :=
  let* xs := slice_elems σ s in
  must (xs !! i).

Definition set_array (a : addr) (arr : list Error) (σ : store) : store :=
  mkStore (<[a := arr]> (arrays σ)) (groups σ).

(** [s[i] = e] *)
Definition slice_set (s : slice) (i : nat) (e : Error) (σ : store) : res store :=
  let* xs := slice_elems σ s in
  if i <? s_len s then
    match s_arr s with
    | Some a =>
        let* arr := must (arrays σ !! a) in
        Ok (set_array a (<[s_off s + i := e]> arr) σ)
    | None => Panic
    end
  else Panic.

(** [s[1:]] *)
Definition slice_tail (s : slice) : slice :=
  mkSlice (s_arr s) (S (s_off s)) (s_len s - 1).

(** [make([]Error, len, cap)]: a new array of [cap] zero values. *)
Definition make_slice (len cap : nat) (σ : store) : slice * store :=
  (mkSlice (Some (length (arrays σ))) 0 len,
   mkStore (arrays σ ++ [replicate cap Error_zero]) (groups σ)).

(** The capacity the runtime gives a slice that has to grow: at least what
    is needed, and amortised doubling.  Nothing in this package observes
    the exact figure. *)
Definition growslice_cap (old needed : nat) : nat := Nat.max needed (2 * old).

(** [append(s, e)]: writes in place into spare capacity, else moves the
    elements to a new array. *)
Definition slice_append (s : slice) (e : Error) (σ : store) : res (slice * store) :=
  let* xs := slice_elems σ s in
  let newcap := growslice_cap (slice_cap σ s) (S (s_len s)) in
  let grown :=
    (mkSlice (Some (length (arrays σ))) 0 (S (s_len s)),
     mkStore (arrays σ ++ [xs ++ e :: replicate (newcap - S (s_len s)) Error_zero])
             (groups σ)) in
  match s_arr s with
  | Some a =>
      let* arr := must (arrays σ !! a) in
      if s_off s + s_len s <? length arr
      then Ok (mkSlice (Some a) (s_off s) (S (s_len s)),
               set_array a (<[s_off s + s_len s := e]> arr) σ)
      else Ok grown
  | None => Ok grown
  end.

(** [copy(dst, src)]: copies [min(len(dst), len(src))] elements. *)
Definition slice_copy (dst src : slice) (σ : store) : res (nat * store) :=
  let* xs := slice_elems σ src in
  let* ys := slice_elems σ dst in
  let n := Nat.min (s_len dst) (s_len src) in
  match s_arr dst with
  | Some a =>
      let* arr := must (arrays σ !! a) in
      Ok (n, set_array a (take (s_off dst) arr ++ take n xs ++ drop (s_off dst + n) arr) σ)
  | None => Ok (n, σ)
  end.

(** [*g]: dereferencing the nil pointer panics. *)
Definition get_group (σ : store) (g : option addr) : res ErrorGroup :=
  match g with
  | Some a => must (groups σ !! a)
  | None => Panic
  end.

(** [g.Errors = s] *)
Definition set_Errors (g : option addr) (s : slice) (σ : store) : res store :=
  let* G := get_group σ g in
  match g with
  | Some a => Ok (mkStore (arrays σ) (<[a := mkErrorGroup s (Formatter G)]> (groups σ)))
  | None => Panic
  end.

(** [&ErrorGroup{...}] *)
Definition new_group (G : ErrorGroup) (σ : store) : addr * store :=
  (length (groups σ), mkStore (arrays σ) (groups σ ++ [G])).

(** The element sequence of the group behind [g]. *)
Definition group_elems (σ : store) (g : option addr) : res (list Error) :=
  let* G := get_group σ g in
  slice_elems σ (Errors G).

(** ** reflect.DeepEqual *)

(** The values of type [any] this package hands to [reflect.DeepEqual];
    [APtrError e] is a [*Error] whose pointee is [e]. *)
Inductive any : Type :=
| ADebugExtras (d : DebugExtras)
| AHelpExtras (h : HelpExtras)
| ARetryExtras (r : RetryExtras)
| AError (e : Error)
| APtrError (e : Error).

Definition Link_eqb (a b : Link) : bool :=
  String.eqb (URL a) (URL b) && String.eqb (Description a) (Description b).

Fixpoint list_eqb {A : Type} (eqb : A -> A -> bool) (l1 l2 : list A) : bool :=
  match l1, l2 with
  | [], [] => true
  | x :: l1', y :: l2' => eqb x y && list_eqb eqb l1' l2'
  | _, _ => false
  end.

(** Slices are deeply equal when both are nil or both are non-nil with
    the same length and deeply equal elements. *)
Definition valslice_DeepEqual {A : Type} (eqb : A -> A -> bool) (s1 s2 : valslice A) : bool :=
  match s1, s2 with
  | None, None => true
  | Some l1, Some l2 => list_eqb eqb l1 l2
  | _, _ => false
  end.

Definition DebugExtras_DeepEqual (a b : DebugExtras) : bool :=
  String.eqb (StackTrace a) (StackTrace b).

Definition HelpExtras_DeepEqual (a b : HelpExtras) : bool :=
  valslice_DeepEqual Link_eqb (Links a) (Links b).

Definition RetryExtras_DeepEqual (a b : RetryExtras) : bool :=
  Z.eqb (Delay a) (Delay b).

Definition ErrorExtras_DeepEqual (a b : ErrorExtras) : bool :=
  DebugExtras_DeepEqual (Debug a) (Debug b) &&
  HelpExtras_DeepEqual (Help a) (Help b) &&
  RetryExtras_DeepEqual (Retry a) (Retry b) &&
  valslice_DeepEqual String.eqb (Tags a) (Tags b).

Definition slice_eqb (c d : slice) : bool :=
  bool_decide (s_arr c = s_arr d) && (s_off c =? s_off d) && (s_len c =? s_len d).

(** Two values of type [Error], field by field; interface values need
    the same dynamic type.  Pointers and slice headers met on the way are
    compared as they are, which is where [reflect] starts on them; no call
    of this package gets that far. *)
Fixpoint error_DeepEqual (x y : error) {struct x} : bool :=
  match x, y with
  | EError a, EError b =>
      String.eqb (Code a) (Code b) &&
      ErrorExtras_DeepEqual (Extras a) (Extras b) &&
      N.eqb (Flags a) (Flags b) &&
      String.eqb (Message a) (Message b) &&
      String.eqb (Namespace a) (Namespace b) &&
      match Wrapped a, Wrapped b with
      | None, None => true
      | Some u, Some v => error_DeepEqual u v
      | _, _ => false
      end
  | EGroup p, EGroup q => bool_decide (p = q)
  | EChain c, EChain d => slice_eqb c d
  | EForeign i _ _, EForeign j _ _ => i =? j
  | _, _ => false
  end.

(** [reflect.DeepEqual(x, y)]: values of distinct types are never deeply
    equal. *)
Definition reflect_DeepEqual (x y : any) : bool :=
  match x, y with
  | ADebugExtras a, ADebugExtras b => DebugExtras_DeepEqual a b
  | AHelpExtras a, AHelpExtras b => HelpExtras_DeepEqual a b
  | ARetryExtras a, ARetryExtras b => RetryExtras_DeepEqual a b
  | AError a, AError b => error_DeepEqual (EError a) (EError b)
  | APtrError a, APtrError b => error_DeepEqual (EError a) (EError b)
  | _, _ => false
  end.

(** ** Unwrapping groups and chains *)

(** [func (e errorChain) Unwrap() error] *)
Definition errorChain_Unwrap (e : slice) : option error :=
  if s_len e <=? 1 then None
  else Some (EChain (slice_tail e)).

(** [func (g *ErrorGroup) Unwrap() error] *)
Definition ErrorGroup_Unwrap (g : option addr) (σ : store) : res (option error * store) :=
  match g with
  | None => Ok (None, σ)
  | Some _ =>
      let* G := get_group σ g in
      if s_len (Errors G) =? 0 then Ok (None, σ)
      else if s_len (Errors G) =? 1 then
        let* x := slice_index σ (Errors G) 0 in
        Ok (Some (EError x), σ)
      else
        let '(errs, σ1) := make_slice (s_len (Errors G)) (s_len (Errors G)) σ in
        let* (_, σ2) := slice_copy errs (Errors G) σ1 in
        Ok (Some (EChain errs), σ2)
  end.

(** ** errors.As *)

(** [func (e errorChain) As(target any) bool] at a target of type
    [*Error]: [errors.As(e[0], target)] succeeds at once, [e[0]] being an
    [Error]. *)
Definition errorChain_As_Error (σ : store) (e : slice) : res (option Error) :=
  if s_len e =? 0 then Ok None
  else
    let* x := slice_index σ e 0 in
    Ok (Some x).

(** The loop of [errors.As(err, &e)] with [e] of type [Error], from a
    non-nil [err]: a value of dynamic type [Error] is assigned; otherwise
    the [As] method is tried where there is one ([errorChain]), then
    [Unwrap()] is followed.  For a group, what [Unwrap()] returns is an
    [Error] or a chain whose [As] answers with its head; an empty chain
    has no [Unwrap()] result either.  The chain a group allocates on the
    way is dropped with the search. *)
Fixpoint as_Error (σ : store) (err : error) {struct err} : res (option Error) :=
  match err with
  | EError e => Ok (Some e)
  | EChain c => errorChain_As_Error σ c
  | EGroup p =>
      let* (next, σ') := ErrorGroup_Unwrap p σ in
      match next with
      | Some (EError e) => Ok (Some e)
      | Some (EChain c) => errorChain_As_Error σ' c
      | _ => Ok None
      end
  | EForeign _ _ cause =>
      match cause with
      | Some w => as_Error σ w
      | None => Ok None
      end
  end.

(** [errors.As(err, &e)], [var e Error]: false on a nil [err]. *)
Definition errors_As_Error (σ : store) (err : option error) : res (option Error) :=
  match err with
  | Some w => as_Error σ w
  | None => Ok None
  end.

(** The loop of [errors.As(err, &eg)] with [eg] of type [*ErrorGroup]: a
    group pointer (nil or not) is assigned; an [Error] and a foreign error
    are unwrapped; a chain tries its head ([errorChain.As]), then goes on
    with its tail ([errorChain.Unwrap]).  The result is the pointer found,
    if any. *)
Fixpoint as_ErrorGroup (fuel : nat) (σ : store) : error -> res (option (option addr)) :=
  fix walk (err : error) : res (option (option addr)) :=
    match err with
    | EGroup p => Ok (Some p)
    | EError e =>
        match Wrapped e with
        | Some w => walk w
        | None => Ok None
        end
    | EForeign _ _ cause =>
        match cause with
        | Some w => walk w
        | None => Ok None
        end
    | EChain c =>
        if s_len c =? 0 then Ok None
        else
          match fuel with
          | 0 => OutOfFuel
          | S fuel' =>
              let* x := slice_index σ c 0 in
              let* r := as_ErrorGroup fuel' σ (EError x) in
              match r with
              | Some p => Ok (Some p)
              | None =>
                  match errorChain_Unwrap c with
                  | Some next => as_ErrorGroup fuel' σ next
                  | None => Ok None
                  end
              end
          end
    end.

(** [errors.As(err, &eg)], [var eg *ErrorGroup]. *)
Definition errors_As_ErrorGroup (fuel : nat) (σ : store) (err : option error)
  : res (option (option addr)) :=
  match err with
  | Some w => as_ErrorGroup fuel σ w
  | None => Ok None
  end.

(** ** Error: identity and zero test *)

(** [func (e Error) Equal(e2 Error) bool] *)
Definition Error_Equal (e e2 : Error) : bool :=
  String.eqb (Code e) (Code e2) &&
  String.eqb (Message e) (Message e2) &&
  String.eqb (Namespace e) (Namespace e2) &&
  N.eqb (Flags e) (Flags e2) &&
  reflect_DeepEqual (ADebugExtras (Debug (Extras e))) (ADebugExtras (Debug (Extras e2))) &&
  reflect_DeepEqual (AHelpExtras (Help (Extras e))) (AHelpExtras (Help (Extras e2))) &&
  reflect_DeepEqual (ARetryExtras (Retry (Extras e))) (ARetryExtras (Retry (Extras e2))).

(** [func (e Error) IsZero() bool]: [reflect.DeepEqual(e, new(Error))], an
    [Error] against a [*Error]. *)
Definition Error_IsZero (e : Error) : bool :=
  reflect_DeepEqual (AError e) (APtrError Error_zero).

(** [func (e Error) Is(target error) bool] *)
Definition Error_Is (σ : store) (e : Error) (target : option error) : res bool :=
  let* r := errors_As_Error σ target in
  match r with
  | Some err => Ok (Error_Equal e err)
  | None => Ok false
  end.

(** [func (e Error) Unwrap() error] *)
Definition Error_Unwrap (e : Error) : option error := Wrapped e.

(** ** errors.Is *)

(** Whether the dynamic type of a target is comparable: pointers are,
    [Error] (a struct with slices inside) and [errorChain] (a slice) are
    not. *)
Definition comparable (target : error) : bool :=
  match target with
  | EGroup _ | EForeign _ _ _ => true
  | EError _ | EChain _ => false
  end.

(** [err == target] on interface values, for a comparable target. *)
Definition iface_eqb (err target : error) : bool :=
  match err, target with
  | EGroup p, EGroup q => bool_decide (p = q)
  | EForeign i _ _, EForeign j _ _ => i =? j
  | _, _ => false
  end.

(** The loop of [errors.Is(err, target)], both non-nil: equality with a
    comparable target, then the [Is] method where there is one ([Error],
    [errorChain]), then [Unwrap()]. *)
Fixpoint is_error (fuel : nat) (σ : store) (target : error) : error -> res bool :=
  fix walk (err : error) : res bool :=
    if comparable target && iface_eqb err target then Ok true
    else
      match err with
      | EError e =>
          let* b := Error_Is σ e (Some target) in
          if b then Ok true
          else
            match Wrapped e with
            | Some w => walk w
            | None => Ok false
            end
      | EForeign _ _ cause =>
          match cause with
          | Some w => walk w
          | None => Ok false
          end
      | EChain c =>
          if s_len c =? 0 then Ok false
          else
            match fuel with
            | 0 => OutOfFuel
            | S fuel' =>
                let* x := slice_index σ c 0 in
                let* b := is_error fuel' σ target (EError x) in
                if b then Ok true
                else
                  match errorChain_Unwrap c with
                  | Some next => is_error fuel' σ target next
                  | None => Ok false
                  end
            end
      | EGroup p =>
          let* (next, σ') := ErrorGroup_Unwrap p σ in
          match next with
          | Some n =>
              match fuel with
              | 0 => OutOfFuel
              | S fuel' => is_error fuel' σ' target n
              end
          | None => Ok false
          end
      end.

(** [errors.Is(err, target)] *)
Definition errors_Is (fuel : nat) (σ : store) (err target : option error) : res bool :=
  match err, target with
  | Some e, Some t => is_error fuel σ t e
  | None, None => Ok true
  | _, _ => Ok false
  end.

(** ** Error: wrapping, copying, tagging *)

(** [func (e Error) Copy() Error] *)
Fixpoint Error_Copy (fuel : nat) (σ : store) (e : Error) {struct fuel} : res Error :=
  let shallow :=
    {| Code := Code e;
       Extras := Extras e;
       Flags := Flags e;
       Message := Message e;
       Namespace := Namespace e;
       Wrapped := Wrapped e |} in
  match Wrapped e with
  | Some w =>
      let* r := errors_As_Error σ (Some w) in
      match r with
      | Some wrapped =>
          match fuel with
          | 0 => OutOfFuel
          | S fuel' =>
              let* c := Error_Copy fuel' σ wrapped in
              Ok {| Code := Code e;
                    Extras := Extras e;
                    Flags := Flags e;
                    Message := Message e;
                    Namespace := Namespace e;
                    Wrapped := Some (EError c) |}
          end
      | None => Ok shallow
      end
  | None => Ok shallow
  end.

(** [func (e Error) Wrap(err error) Error] *)
Definition Error_Wrap (fuel : nat) (σ : store) (e : Error) (err : option error) : res Error :=
  let wrapping :=
    {| Code := Code e;
       Extras := Extras e;
       Flags := Flags e;
       Message := Message e;
       Namespace := Namespace e;
       Wrapped := err |} in
  match err with
  | None => Ok e
  | Some _ =>
      if Error_IsZero e then
        let* r := errors_As_Error σ err in
        match r with
        | Some e2 => Error_Copy fuel σ e2
        | None => Ok wrapping
        end
      else Ok wrapping
  end.

(** [func (e ErrorExtras) WithTag(tags ...string) ErrorExtras] *)
Definition ErrorExtras_WithTag (e : ErrorExtras) (tags : list string) : ErrorExtras :=
  {| Debug := Debug e;
     Help := Help e;
     Retry := Retry e;
     Tags := valslice_append (Tags e) tags |}.

(** [func (e Error) WithTag(tags ...string) Error] *)
Definition Error_WithTag (e : Error) (tags : list string) : Error :=
  {| Code := Code e;
     Extras := ErrorExtras_WithTag (Extras e) tags;
     Flags := Flags e;
     Message := Message e;
     Namespace := Namespace e;
     Wrapped := Wrapped e |}.

(** ** Rendering *)

Definition newline : string := String (ascii_of_nat 10) EmptyString.

(** [strings.Join(points, "\n")] *)
Fixpoint join_lines (points : list string) : string :=
  match points with
  | [] => ""
  | [p] => p
  | p :: rest => (p ++ newline ++ join_lines rest)%string
  end.

(** [func ErrorGroupFormatterDefault(errors []Error) string], over the
    function that renders one [Error] ([fmt]'s [%s] calls [Error.Format],
    which writes [e.Error()]). *)
Definition ErrorGroupFormatterDefault (render : Error -> res string) (errors : list Error)
  : res string :=
  match errors with
  | [] => Ok ""
  | [e] => render e
  | _ =>
      let* points :=
        foldr (fun err acc =>
                 let* s := render err in
                 let* rest := acc in
                 Ok (("* " ++ s)%string :: rest))
              (Ok []) errors in
      Ok (newline ++ join_lines points ++ newline ++ newline)%string
  end.

(** The [Error()] method of a non-nil error value, by dynamic type:
    [func (e Error) Error() string], [func (g *ErrorGroup) Error() string],
    [func (e errorChain) Error() string], and the text of a foreign
    error. *)
Fixpoint error_Error (fuel : nat) (σ : store) : error -> res string :=
  fix render (err : error) : res string :=
    match err with
    | EError e =>
        let head := ("[" ++ Namespace e ++ ":" ++ Code e ++ "] " ++ Message e)%string in
        match Wrapped e with
        | Some w =>
            let* s := render w in
            Ok (head ++ newline ++ "-> " ++ s)%string
        | None => Ok head
        end
    | EForeign _ msg _ => Ok msg
    | EChain c =>
        if s_len c =? 0 then Ok ""
        else
          match fuel with
          | 0 => OutOfFuel
          | S fuel' =>
              let* x := slice_index σ c 0 in
              error_Error fuel' σ (EError x)
          end
    | EGroup g =>
        let* G := get_group σ g in
        let* errors := slice_elems σ (Errors G) in
        match Formatter G with
        | FmtNil => Panic
        | FmtCustom f => Ok (f errors)
        | FmtDefault =>
            ErrorGroupFormatterDefault
              (fun x =>
                 match fuel with
                 | 0 => OutOfFuel
                 | S fuel' => error_Error fuel' σ (EError x)
                 end)
              errors
        end
    end.

(** [func (e Error) Error() string] *)
Definition Error_Error (fuel : nat) (σ : store) (e : Error) : res string :=
  error_Error fuel σ (EError e).

(** ** errorChain *)

(** [func (e errorChain) Error() string] *)
Definition errorChain_Error (fuel : nat) (σ : store) (e : slice) : res string :=
  if s_len e =? 0 then Ok ""
  else
    let* x := slice_index σ e 0 in
    Error_Error fuel σ x.

(** [func (e errorChain) As(target any) bool] at a target of type
    [**ErrorGroup]. *)
Definition errorChain_As_ErrorGroup (fuel : nat) (σ : store) (e : slice)
  : res (option (option addr)) :=
  if s_len e =? 0 then Ok None
  else
    let* x := slice_index σ e 0 in
    errors_As_ErrorGroup fuel σ (Some (EError x)).

(** [func (e errorChain) Is(target error) bool] *)
Definition errorChain_Is (fuel : nat) (σ : store) (e : slice) (target : option error)
  : res bool :=
  if s_len e =? 0 then Ok false
  else
    let* x := slice_index σ e 0 in
    errors_Is fuel σ (Some (EError x)) target.

(** ** ErrorGroup *)

(** Modelled from the spec: [SliceTypeAssert] is called by [Append] and
    declared outside the files at hand.  The spec describes it as the
    operation that narrows each element of a sequence to a target type,
    dropping the elements that do not narrow, and notes that at its one
    call site, [SliceTypeAssert[Error, error](eg.Errors)], every element
    narrows: each [Error] becomes the [error] value holding it. *)
Definition SliceTypeAssert (input : list Error) : list (option error) :=
  map (fun x => Some (EError x)) input.

(** [func (g *ErrorGroup) Append(errs ...error)] *)
Fixpoint ErrorGroup_Append (fuel : nat) (g : option addr)
  : list (option error) -> store -> res store :=
  fix loop (errs : list (option error)) (σ : store) : res store :=
    match errs with
    | [] => Ok σ
    | None :: rest => loop rest σ
    | Some err :: rest =>
        let* found := errors_As_ErrorGroup fuel σ (Some err) in
        match found with
        | Some eg =>
            let* G := get_group σ eg in
            let* xs := slice_elems σ (Errors G) in
            match fuel with
            | 0 => OutOfFuel
            | S fuel' =>
                let* σ1 := ErrorGroup_Append fuel' g (SliceTypeAssert xs) σ in
                loop rest σ1
            end
        | None =>
            let* r := errors_As_Error σ (Some err) in
            let* e :=
              match r with
              | Some e => Ok e
              | None => Error_Wrap fuel σ ErrUndefined (Some err)
              end in
            if Error_IsZero e then loop rest σ
            else
              let* G := get_group σ g in
              let* (s', σ1) := slice_append (Errors G) e σ in
              let* σ2 := set_Errors g s' σ1 in
              loop rest σ2
        end
    end.

(** [func NewErrorGroup(errs ...error) *ErrorGroup] *)
Definition NewErrorGroup (fuel : nat) (errs : list (option error)) (σ : store)
  : res (addr * store) :=
  let '(s, σ1) := make_slice 0 (length errs) σ in
  let '(eg, σ2) := new_group (mkErrorGroup s FmtDefault) σ1 in
  let* σ3 := ErrorGroup_Append fuel (Some eg) errs σ2 in
  Ok (eg, σ3).

(** The loop of [AsGroup], from the current [err]. *)
Fixpoint AsGroup_loop (fuel : nat) (g : addr) (err : Error) (σ : store) {struct fuel}
  : res store :=
  match Wrapped err with
  | None => Ok σ
  | Some w =>
      match fuel with
      | 0 => OutOfFuel
      | S fuel' =>
          let* σ1 := ErrorGroup_Append fuel' (Some g) [Some w] σ in
          let* r := errors_As_Error σ1 (Some w) in
          match r with
          | Some we => AsGroup_loop fuel' g we σ1
          | None => Ok σ1
          end
      end
  end.

(** [func (e Error) AsGroup() *ErrorGroup] *)
Definition Error_AsGroup (fuel : nat) (e : Error) (σ : store) : res (addr * store) :=
  let* (g, σ1) := NewErrorGroup fuel [Some (EError e)] σ in
  let* σ2 := AsGroup_loop fuel g e σ1 in
  Ok (g, σ2).

(** [func (g *ErrorGroup) Slice() []Error] *)
Definition ErrorGroup_Slice (σ : store) (g : option addr) : res slice :=
  let* G := get_group σ g in
  Ok (Errors G).

Definition is_nil_slice (s : slice) : bool :=
  match s_arr s with
  | None => true
  | Some _ => false
  end.

(** [func (g *ErrorGroup) ErrorOrNil() error] *)
Definition ErrorGroup_ErrorOrNil (σ : store) (g : option addr) : res (option error) :=
  match g with
  | None => Ok None
  | Some _ =>
      let* G := get_group σ g in
      if is_nil_slice (Errors G) || (s_len (Errors G) =? 0) then Ok None
      else Ok (Some (EGroup g))
  end.

(** [func (g *ErrorGroup) GroupOrNil() *ErrorGroup] *)
Definition ErrorGroup_GroupOrNil (σ : store) (g : option addr) : res (option addr) :=
  match g with
  | None => Ok None
  | Some _ =>
      let* G := get_group σ g in
      if is_nil_slice (Errors G) || (s_len (Errors G) =? 0) then Ok None
      else Ok g
  end.

(** [func (g *ErrorGroup) Empty() bool] *)
Definition ErrorGroup_Empty (σ : store) (g : option addr) : res bool :=
  match g with
  | None => Ok true
  | Some _ =>
      let* G := get_group σ g in
      Ok (s_len (Errors G) =? 0)
  end.

(** [func (g *ErrorGroup) Error() string] *)
Definition ErrorGroup_Error (fuel : nat) (σ : store) (g : option addr) : res string :=
  error_Error fuel σ (EGroup g).

(** [func (g *ErrorGroup) Len() int] *)
Definition ErrorGroup_Len (σ : store) (g : option addr) : res nat :=
  let* G := get_group σ g in
  Ok (s_len (Errors G)).

(** [func (g *ErrorGroup) Swap(i, j int)] *)
Definition ErrorGroup_Swap (g : option addr) (i j : nat) (σ : store) : res store :=
  let* G := get_group σ g in
  let* xj := slice_index σ (Errors G) j in
  let* xi := slice_index σ (Errors G) i in
  let* σ1 := slice_set (Errors G) i xj σ in
  slice_set (Errors G) j xi σ1.

(** [type ErrorTranslate func(err error) error], taken as a function of
    its argument (it may answer nil): a translation that reads and writes
    nothing but its argument.  [ErrorTranslateClosure] below is the
    general case. *)
Definition ErrorTranslate : Type := error -> option error.

(** The loop of [Translate] from index [i]; [n] bounds the iterations
    left (a translation that writes nothing leaves the length as it
    is). *)
Fixpoint Translate_loop (n : nat) (fuel : nat) (g : option addr)
    (translate : ErrorTranslate) (i : nat) (σ : store) {struct n} : res store :=
  let* len := ErrorGroup_Len σ g in
  if i <? len then
    match n with
    | 0 => OutOfFuel
    | S n' =>
        let* G := get_group σ g in
        let* x := slice_index σ (Errors G) i in
        let t := translate (EError x) in
        let* r := errors_As_Error σ t in
        let* e :=
          match r with
          | Some e => Ok e
          | None => Error_Wrap fuel σ ErrUndefined t
          end in
        let* σ1 := slice_set (Errors G) i e σ in
        Translate_loop n' fuel g translate (S i) σ1
    end
  else Ok σ.

(** [func (g *ErrorGroup) Translate(translate ErrorTranslate)] *)
Definition ErrorGroup_Translate (fuel : nat) (g : option addr)
    (translate : ErrorTranslate) (σ : store) : res store :=
  let* len := ErrorGroup_Len σ g in
  Translate_loop len fuel g translate 0 σ.

(** [type ErrorTranslate func(err error) error] as Go passes it: a
    closure, which besides answering (possibly nil) may read and write what
    it has captured, the group under translation included; it may also
    panic. *)
Definition ErrorTranslateClosure : Type := error -> store -> res (option error * store).

(** A translation that writes nothing, as a closure. *)
Definition pure_closure (translate : ErrorTranslate) : ErrorTranslateClosure :=
  fun err σ => Ok (translate err, σ).

(** [g.Errors[i] = e] *)
Definition set_element (g : option addr) (i : nat) (e : Error) (σ : store) : res store :=
  let* G := get_group σ g in
  slice_set (Errors G) i e σ.

(** The loop of [Translate] from index [i], with a closure: every turn
    reads [g.Len()] and [g.Errors] anew, so it sees what the closure has
    written; [n] bounds the turns left. *)
Fixpoint Translate_closure_loop (n : nat) (fuel : nat) (g : option addr)
    (translate : ErrorTranslateClosure) (i : nat) (σ : store) {struct n} : res store :=
  let* len := ErrorGroup_Len σ g in
  if i <? len then
    match n with
    | 0 => OutOfFuel
    | S n' =>
        let* G := get_group σ g in
        let* x := slice_index σ (Errors G) i in
        let* (t, σ1) := translate (EError x) σ in
        let* r := errors_As_Error σ1 t in
        let* e :=
          match r with
          | Some e => Ok e
          | None => Error_Wrap fuel σ1 ErrUndefined t
          end in
        let* σ2 := set_element g i e σ1 in
        Translate_closure_loop n' fuel g translate (S i) σ2
    end
  else Ok σ.

(** [func (g *ErrorGroup) Translate(translate ErrorTranslate)], with a
    closure and at most [n] turns of the loop. *)
Definition ErrorGroup_Translate_closure (n : nat) (fuel : nat) (g : option addr)
    (translate : ErrorTranslateClosure) (σ : store) : res store :=
  Translate_closure_loop n fuel g translate 0 σ.

(** ** Error: key, extras, formatting *)

(** [func ErrorKey(namespace, code string) string] *)
Definition ErrorKey (namespace code : string) : string :=
  (namespace ++ "/" ++ code)%string.

(** [func (e Error) Key() string] *)
Definition Error_Key (e : Error) : string := ErrorKey (Namespace e) (Code e).

(** [func (e ErrorExtras) WithDebugExtras(extras DebugExtras) ErrorExtras] *)
Definition ErrorExtras_WithDebugExtras (e : ErrorExtras) (extras : DebugExtras)
  : ErrorExtras :=
  {| Debug := extras; Help := Help e; Retry := Retry e; Tags := Tags e |}.

(** [func (e ErrorExtras) WithHelpExtras(extras HelpExtras) ErrorExtras] *)
Definition ErrorExtras_WithHelpExtras (e : ErrorExtras) (extras : HelpExtras)
  : ErrorExtras :=
  {| Debug := Debug e; Help := extras; Retry := Retry e; Tags := Tags e |}.

(** [func (e ErrorExtras) WithRetryExtras(extras RetryExtras) ErrorExtras] *)
Definition ErrorExtras_WithRetryExtras (e : ErrorExtras) (extras : RetryExtras)
  : ErrorExtras :=
  {| Debug := Debug e; Help := Help e; Retry := extras; Tags := Tags e |}.

(** [func (e Error) WithDebugInfo(extras DebugExtras) Error] *)
Definition Error_WithDebugInfo (e : Error) (extras : DebugExtras) : Error :=
  {| Code := Code e;
     Extras := ErrorExtras_WithDebugExtras (Extras e) extras;
     Flags := Flags e;
     Message := Message e;
     Namespace := Namespace e;
     Wrapped := Wrapped e |}.

(** [func (e Error) WithHelp(extras HelpExtras) Error] *)
Definition Error_WithHelp (e : Error) (extras : HelpExtras) : Error :=
  {| Code := Code e;
     Extras := ErrorExtras_WithHelpExtras (Extras e) extras;
     Flags := Flags e;
     Message := Message e;
     Namespace := Namespace e;
     Wrapped := Wrapped e |}.

(** [func (e Error) WithRetry(extras RetryExtras) Error] *)
Definition Error_WithRetry (e : Error) (extras : RetryExtras) : Error :=
  {| Code := Code e;
     Extras := ErrorExtras_WithRetryExtras (Extras e) extras;
     Flags := Flags e;
     Message := Message e;
     Namespace := Namespace e;
     Wrapped := Wrapped e |}.

(** [func (e DebugExtras) IsZero() bool] *)
Definition DebugExtras_IsZero (e : DebugExtras) : bool :=
  String.eqb (StackTrace e) "".

(** [func (e HelpExtras) IsZero() bool] *)
Definition HelpExtras_IsZero (e : HelpExtras) : bool :=
  length (valslice_elems (Links e)) =? 0.

(** [func (e RetryExtras) IsZero() bool] *)
Definition RetryExtras_IsZero (e : RetryExtras) : bool :=
  Z.eqb (Delay e) 0.

(** [func (e ErrorExtras) IsZero() bool] *)
Definition ErrorExtras_IsZero (e : ErrorExtras) : bool :=
  DebugExtras_IsZero (Debug e) && HelpExtras_IsZero (Help e) &&
  RetryExtras_IsZero (Retry e) && (length (valslice_elems (Tags e)) =? 0).

(** [func (e Error) String() string] *)
Definition Error_String (fuel : nat) (σ : store) (e : Error) : res string :=
  Error_Error fuel σ e.

(** [func (e Error) Format(s fmt.State, verb rune)]: the text written to
    [s], which is taken to accept every write ([io.WriteString] answering
    an error makes [Format] panic); [plus] is [s.Flag('+')].  The store
    is threaded because [AsGroup] allocates. *)
Definition Error_Format (fuel : nat) (e : Error) (verb : ascii) (plus : bool) (σ : store)
  : res (string * store) :=
  let plain_text :=
    let* s := Error_Error fuel σ e in
    Ok (s, σ) in
  if Ascii.eqb verb "v" then
    if plus then
      let* (g, σ1) := Error_AsGroup fuel e σ in
      let* s := ErrorGroup_Error fuel σ1 (Some g) in
      Ok (s, σ1)
    else plain_text
  else if Ascii.eqb verb "s" then plain_text
  else if Ascii.eqb verb "q" then plain_text
  else Ok ("", σ).

(** ** ErrorGroup: ordering, translated construction *)

(** [func (g *ErrorGroup) Less(i, j int) bool]: [<] on Go strings is the
    lexicographic order on their bytes. *)
Definition ErrorGroup_Less (fuel : nat) (σ : store) (g : option addr) (i j : nat)
  : res bool :=
  let* G := get_group σ g in
  let* xi := slice_index σ (Errors G) i in
  let* si := Error_Error fuel σ xi in
  let* xj := slice_index σ (Errors G) j in
  let* sj := Error_Error fuel σ xj in
  Ok (String.ltb si sj).

(** [func NewTranslatedErrorGroup(translate ErrorTranslate, errs ...error)
    *ErrorGroup] *)
Definition NewTranslatedErrorGroup (fuel : nat) (translate : ErrorTranslate)
    (errs : list (option error)) (σ : store) : res (addr * store) :=
  let* (eg, σ1) := NewErrorGroup fuel errs σ in
  let* σ2 := ErrorGroup_Translate fuel (Some eg) translate σ1 in
  Ok (eg, σ2).

(** ** slices.go *)

(** The slice a variadic parameter holds: nil when no argument is
    passed. *)
Definition variadic {A : Type} (args : list A) : valslice A :=
  match args with
  | [] => None
  | _ => Some args
  end.

(** [func SliceFlatten[T any](slices ...[]T) []T] *)
Definition SliceFlatten {T : Type} (slices : list (valslice T)) : valslice T :=
  foldl (fun flattened slice => valslice_append flattened (valslice_elems slice))
        None slices.

(** [func SliceFilter[T any](input []T, predicate Predicate[T]) []T];
    [Predicate[T]], declared outside the files at hand, is called as a
    function from [T] to [bool]. *)
Definition SliceFilter {T : Type} (input : valslice T) (predicate : T -> bool)
  : valslice T :=
  foldl (fun filtered item =>
           if predicate item then Some (valslice_elems filtered ++ [item])
           else filtered)
        None (valslice_elems input).

(** [func SliceToMap[K comparable, V any](input []V, key func(v V) K)
    map[K]V] *)
Definition SliceToMap {K V : Type} `{Countable K} (input : valslice V) (key : V -> K)
  : gmap K V :=
  foldl (fun result item => <[key item := item]> result) ∅ (valslice_elems input).

(** [func ErrorJoin(err error, errs ...error) *ErrorGroup] *)
Definition ErrorJoin (fuel : nat) (err : option error) (errs : list (option error))
    (σ : store) : res (option addr * store) :=
  let* found := errors_As_ErrorGroup fuel σ err in
  match found with
  | Some eg =>
      let* σ1 := ErrorGroup_Append fuel eg errs σ in
      Ok (eg, σ1)
  | None =>
      let* (eg, σ1) := NewErrorGroup fuel [] σ in
      let* σ2 :=
        ErrorGroup_Append fuel (Some eg)
          (valslice_elems (SliceFlatten [Some [err]; variadic errs])) σ1 in
      Ok (Some eg, σ2)
  end.

(** ** The enum FakeStrategy *)

(** [FakeStrategy] is a string type (its constants are string
    literals). *)
Definition FakeStrategy : Type := string.

Definition FakeStrategyUnspecified : FakeStrategy := "unspecified".
Definition FakeStrategyRandom : FakeStrategy := "random".
Definition FakeStrategyRandomRange : FakeStrategy := "random_range".
Definition FakeStrategyRandomPattern : FakeStrategy := "random_pattern".
Definition FakeStrategyRandomSelect : FakeStrategy := "random_select".
Definition FakeStrategyDistributionNormal : FakeStrategy := "distribution_normal".
Definition FakeStrategyDistributionUniform : FakeStrategy := "distribution_uniform".
Definition FakeStrategyStateful : FakeStrategy := "stateful".

(** [var _FakeStrategyNames = []string{...}] *)
Definition _FakeStrategyNames : list string :=
  [ FakeStrategyUnspecified;
    FakeStrategyRandom;
    FakeStrategyRandomRange;
    FakeStrategyRandomPattern;
    FakeStrategyRandomSelect;
    FakeStrategyDistributionNormal;
    FakeStrategyDistributionUniform;
    FakeStrategyStateful ].

(** [strings.Join(elems, sep)] *)
Fixpoint strings_Join (elems : list string) (sep : string) : string :=
  match elems with
  | [] => ""
  | [x] => x
  | x :: rest => (x ++ sep ++ strings_Join rest sep)%string
  end.

(** The text of [ErrInvalidFakeStrategy]:
    [fmt.Errorf("not a valid FakeStrategy, try [%s]",
    strings.Join(_FakeStrategyNames, ", "))]. *)
Definition ErrInvalidFakeStrategy_text : string :=
  ("not a valid FakeStrategy, try [" ++ strings_Join _FakeStrategyNames ", " ++ "]")%string.

(** [var ErrInvalidFakeStrategy]: one error value, at the pointer [id]. *)
Definition ErrInvalidFakeStrategy (id : nat) : error :=
  EForeign id ErrInvalidFakeStrategy_text None.

(** [func FakeStrategyNames() []string]: a copy of the list. *)
Definition FakeStrategyNames : list string := _FakeStrategyNames.

(** [func (x FakeStrategy) String() string] *)
Definition FakeStrategy_String (x : FakeStrategy) : string := x.

(** [var _FakeStrategyValue = map[string]FakeStrategy{...}] *)
Definition _FakeStrategyValue : gmap string FakeStrategy :=
  <["unspecified" := FakeStrategyUnspecified]>
  (<["random" := FakeStrategyRandom]>
  (<["random_range" := FakeStrategyRandomRange]>
  (<["random_pattern" := FakeStrategyRandomPattern]>
  (<["random_select" := FakeStrategyRandomSelect]>
  (<["distribution_normal" := FakeStrategyDistributionNormal]>
  (<["distribution_uniform" := FakeStrategyDistributionUniform]>
  (<["stateful" := FakeStrategyStateful]> ∅))))))).

(** [func ParseFakeStrategy(name string) (FakeStrategy, error)]; [invalid]
    is the pointer of [ErrInvalidFakeStrategy] and [fresh] the pointer of
    the error value that [fmt.Errorf("%s is %w", ...)] allocates on
    failure, which wraps [ErrInvalidFakeStrategy]. *)
Definition ParseFakeStrategy (invalid fresh : nat) (name : string)
  : FakeStrategy * option error :=
  match _FakeStrategyValue !! name with
  | Some x => (x, None)
  | None =>
      ("",
       Some (EForeign fresh (name ++ " is " ++ ErrInvalidFakeStrategy_text)%string
                      (Some (ErrInvalidFakeStrategy invalid))))
  end.

(** [func (x FakeStrategy) IsValid() bool] *)
Definition FakeStrategy_IsValid (invalid fresh : nat) (x : FakeStrategy) : bool :=
  match snd (ParseFakeStrategy invalid fresh (FakeStrategy_String x)) with
  | None => true
  | Some _ => false
  end.

(** [func (x FakeStrategy) MarshalText() ([]byte, error)] *)
Definition FakeStrategy_MarshalText (x : FakeStrategy) : list Byte.byte * option error :=
  (list_byte_of_string x, None).

(** [func (x *FakeStrategy) UnmarshalText(text []byte) error]: the value
    [*x] holds afterwards, and the error. *)
Definition FakeStrategy_UnmarshalText (invalid fresh : nat) (x : FakeStrategy)
    (text : list Byte.byte) : FakeStrategy * option error :=
  let '(tmp, err) := ParseFakeStrategy invalid fresh (string_of_list_byte text) in
  match err with
  | Some _ => (x, err)
  | None => (tmp, None)
  end.

(** * Vocabulary of the statements *)

(** ** Steps and regions of the store *)

(** [g.Errors = append(g.Errors, e)], the last step of [Append]'s loop
    body. *)
Definition push (g : option addr) (e : Error) (σ : store) : res store :=
  let* G := get_group σ g in
  let* (s', σ1) := slice_append (Errors G) e σ in
  let* σ2 := set_Errors g s' σ1 in
  Ok σ2.

(** The array the slice [g.Errors] sits in. *)
Definition group_array (σ : store) (g : addr) : option addr :=
  match groups σ !! g with
  | Some G => s_arr (Errors G)
  | None => None
  end.

(** The array at [b] holds [arr], and the slice of the group at [a] sits
    in another array. *)
Definition apart (a b : addr) (arr : list Error) (σ : store) : Prop :=
  arrays σ !! b = Some arr /\ group_array σ a <> Some b.

(** ** Kinds of error values *)

(** Whether an error value is itself an [Error] (has that dynamic type). *)
Definition is_Error_value (err : error) : bool :=
  match err with
  | EError _ => true
  | _ => false
  end.

(** No group pointer and no chain along the unwrap chain. *)
Fixpoint plain (err : error) : bool :=
  match err with
  | EError e =>
      match Wrapped e with
      | Some w => plain w
      | None => true
      end
  | EForeign _ _ cause =>
      match cause with
      | Some w => plain w
      | None => true
      end
  | EGroup _ | EChain _ => false
  end.

(** The first [Error] along the unwrap chain of a plain error. *)
Fixpoint first_Error (err : error) : option Error :=
  match err with
  | EError e => Some e
  | EForeign _ _ (Some w) => first_Error w
  | _ => None
  end.

(** What [Append] and [Translate] store for a plain error: the [Error]
    narrowed from it, or else the error under [ErrUndefined]. *)
Definition narrowed (err : error) : Error :=
  match first_Error err with
  | Some e => e
  | None => set_Wrapped ErrUndefined (Some err)
  end.

(** The number of values along the unwrap chain of a plain error. *)
Fixpoint depth (err : error) : nat :=
  match err with
  | EError e =>
      S (match Wrapped e with
         | Some w => depth w
         | None => 0
         end)
  | EForeign _ _ cause =>
      S (match cause with
         | Some w => depth w
         | None => 0
         end)
  | EGroup _ | EChain _ => 1
  end.

(** A foreign error whose unwrap chain holds foreign errors only. *)
Fixpoint opaque (err : error) : bool :=
  match err with
  | EForeign _ _ cause =>
      match cause with
      | Some w => opaque w
      | None => true
      end
  | _ => false
  end.

(** ** The wrap chain of an Error *)

(** The wrap chain of an [Error] as the spec reads it: the links are the
    receiver and, while the wrapped value is itself an [Error], that
    value's links, root first. *)
Fixpoint links_from (err : error) : list Error :=
  match err with
  | EError e =>
      e :: match Wrapped e with
           | Some w => links_from w
           | None => []
           end
  | _ => []
  end.

Definition links (e : Error) : list Error := links_from (EError e).

(** The terminal cause: the first wrapped value that is not itself an
    [Error]; [None] when the chain ends in an [Error] that wraps nothing. *)
Fixpoint terminal_from (err : error) : option error :=
  match err with
  | EError e =>
      match Wrapped e with
      | Some w => terminal_from w
      | None => None
      end
  | other => Some other
  end.

Definition terminal (e : Error) : option error := terminal_from (EError e).

(** ** Translation, element by element *)

(** What [Translate] puts in place of [x]: the [Error] that [errors.As]
    extracts from [translate(x)] in the store of that moment, or else
    [translate(x)] under [ErrUndefined]. *)
Definition translates (translate : ErrorTranslate) (x y : Error) : Prop :=
  exists σi r,
    errors_As_Error σi (translate (EError x)) = Ok r /\
    y = match r with
        | Some e => e
        | None => set_Wrapped ErrUndefined (translate (EError x))
        end.

(** ** Translations that write *)

(** What a turn of [Translate]'s loop stores, given the translation's
    result and what [errors.As] extracted from it: the [Error] extracted,
    or else the result under [ErrUndefined]. *)
Definition stored (tr : option error * option Error) : Error :=
  match snd tr with
  | Some e => e
  | None => set_Wrapped ErrUndefined (fst tr)
  end.

(** The closure [fn] does not write to the group [g]: whenever it
    returns, the group is the record it was and its elements read as they
    did. *)
Definition leaves_group (g : option addr) (fn : ErrorTranslateClosure) : Prop :=
  forall err σ t σ1 G xs,
    get_group σ g = Ok G ->
    slice_elems σ (Errors G) = Ok xs ->
    fn err σ = Ok (t, σ1) ->
    get_group σ1 g = Ok G /\ slice_elems σ1 (Errors G) = Ok xs.

(** The translation of the sequence [xs] from index [i] on, turn by turn:
    for each element [x], in order, [fn(x)] is called in the store the
    turns before have left and answers [t]; [errors.As] is asked for an
    [Error] in [t] and answers [r]; and what is [stored] for [(t, r)] is
    written at the index of [x]. *)
Inductive translation (fn : ErrorTranslateClosure) (g : option addr)
  : nat -> store -> list Error -> list (option error * option Error) -> store -> Prop :=
| translation_done (i : nat) (σ : store) :
    translation fn g i σ [] [] σ
| translation_turn (i : nat) (σ : store) (x : Error) (xs : list Error)
    (t : option error) (σ1 : store) (r : option Error) (σ2 : store)
    (trs : list (option error * option Error)) (σ' : store) :
    fn (EError x) σ = Ok (t, σ1) ->
    errors_As_Error σ1 t = Ok r ->
    set_element g i (stored (t, r)) σ1 = Ok σ2 ->
    translation fn g (S i) σ2 xs trs σ' ->
    translation fn g i σ (x :: xs) ((t, r) :: trs) σ'.

(** ** Writes to a group *)

(** The operations of the package that write to a group: [Append],
    [Swap] (what [sort.Sort] moves elements with) and [Translate]. *)
Inductive mutation : Type :=
| MAppend (fuel : nat) (errs : list (option error))
| MSwap (i j : nat)
| MTranslate (fuel : nat) (translate : ErrorTranslate).

Definition mutate (g : option addr) (m : mutation) (σ : store) : res store :=
  match m with
  | MAppend fuel errs => ErrorGroup_Append fuel g errs σ
  | MSwap i j => ErrorGroup_Swap g i j σ
  | MTranslate fuel translate => ErrorGroup_Translate fuel g translate σ
  end.

Fixpoint mutate_all (g : option addr) (ms : list mutation) (σ : store) : res store :=
  match ms with
  | [] => Ok σ
  | m :: rest =>
      let* σ1 := mutate g m σ in
      mutate_all g rest σ1
  end.

(** ** More vocabulary *)

(** No ["/"] in a string. *)
Fixpoint no_slash (s : string) : bool :=
  match s with
  | EmptyString => true
  | String c rest => negb (Ascii.eqb c "/") && no_slash rest
  end.

(** What [Append] and [Translate] store for a plain error or nil. *)
Definition narrowed_opt (t : option error) : Error :=
  match t with
  | Some w => narrowed w
  | None => ErrUndefined
  end.

(** Whether an optional error is nil or plain. *)
Definition plain_opt (t : option error) : bool :=
  match t with
  | Some w => plain w
  | None => true
  end.

(** The non-nil errors of an argument list. *)
Definition non_nil (errs : list (option error)) : list error := omap id errs.

(** [errors.Is] read off a plain error and a plain target, without the
    store: along the unwrap chain, equality with a comparable target or
    the [Is] method of an [Error]. *)
Fixpoint is_plain (target err : error) : bool :=
  (comparable target && iface_eqb err target) ||
  match err with
  | EError e =>
      match first_Error target with
      | Some t => Error_Equal e t
      | None => false
      end ||
      match Wrapped e with
      | Some w => is_plain target w
      | None => false
      end
  | EForeign _ _ cause =>
      match cause with
      | Some w => is_plain target w
      | None => false
      end
  | EGroup _ | EChain _ => false
  end.

(** [Unwrap()] applied [k] times, starting from a chain. *)
Fixpoint unwrap_times (k : nat) (err : option error) : option error :=
  match k with
  | 0 => err
  | S k' =>
      match err with
      | Some (EChain c) => unwrap_times k' (errorChain_Unwrap c)
      | _ => None
      end
  end.

(** ** Sample values and stores *)

Definition sample (code : string) (w : option error) : Error :=
  {| Code := code;
     Extras := ErrorExtras_zero;
     Flags := 0%N;
     Message := "message";
     Namespace := "ns";
     Wrapped := w |}.

(** [errors.New("boom")] *)
Definition boom : error := EForeign 1 "boom" None.

(** [e1] wraps [e2], which wraps the foreign error [boom]. *)
Definition chain_e2 : Error := sample "e2" (Some boom).
Definition chain_e1 : Error := sample "e1" (Some (EError chain_e2)).

(** [fmt.Errorf("ctx: %w", inner)] *)
Definition inner : Error := sample "inner" None.
Definition ctx_inner : error := EForeign 2 "ctx: [ns:inner] message" (Some (EError inner)).

(** [fmt.Errorf("ctx: %w", err)] as a translation: the result is never
    itself an [Error], and always wraps one. *)
Definition add_context : ErrorTranslate :=
  fun err => Some (EForeign 3 "ctx" (Some err)).

(** [func(err error) error { return NewErrorGroup() }]: every result is
    a new, empty group. *)
Definition to_new_group : ErrorTranslateClosure :=
  fun _ σ =>
    let* (eg, σ1) := NewErrorGroup 0 [] σ in
    Ok (Some (EGroup (Some eg)), σ1).

(** [func(err error) error { if e, ok := err.(Error); ok && e.Code == "c"
    { g.Append(z) }; return err }], with [g] the group at 0 and [z] the
    [Error] [sample "z" nil]: a translation that appends to the group it
    translates. *)
Definition append_once : ErrorTranslateClosure :=
  fun err σ =>
    match err with
    | EError e =>
        if String.eqb (Code e) "c" then
          let* σ1 := ErrorGroup_Append 1 (Some 0) [Some (EError (sample "z" None))] σ in
          Ok (Some err, σ1)
        else Ok (Some err, σ)
    | _ => Ok (Some err, σ)
    end.

(** A store with three groups: [d] at 0, [a, b] at 1 and [c] at 2,
    where [a] wraps the group at 0. *)
Definition nested_a : Error := sample "a" (Some (EGroup (Some 0))).

Definition nested_store : store :=
  {| arrays := [ [sample "d" None];
                 [nested_a; sample "b" None];
                 [sample "c" None] ];
     groups := [ mkErrorGroup (mkSlice (Some 0) 0 1) FmtDefault;
                 mkErrorGroup (mkSlice (Some 1) 0 2) FmtDefault;
                 mkErrorGroup (mkSlice (Some 2) 0 1) FmtDefault ] |}.

Definition flat_store : store :=
  {| arrays := [ [sample "c" None]; [sample "a" (Some boom); sample "b" None] ];
     groups := [ mkErrorGroup (mkSlice (Some 0) 0 1) FmtDefault;
                 mkErrorGroup (mkSlice (Some 1) 0 2) FmtDefault ] |}.

Definition empty_group_store : store :=
  {| arrays := [ [] ];
     groups := [ mkErrorGroup (mkSlice (Some 0) 0 0) FmtDefault ] |}.

Definition two_store : store :=
  {| arrays := [ [sample "a" None; sample "b" None] ]; groups := [] |}.

(** * Properties *)

(** ** Equal and IsZero *)

Lemma list_eqb_refl {A : Type} (eqb : A -> A -> bool) (l : list A) :
  (forall x, eqb x x = true) -> list_eqb eqb l l = true.
Proof.
  intros Hrefl. induction l as [|x l IH]; simpl.
  - reflexivity.
  - now rewrite Hrefl, IH.
Qed.

Lemma Link_eqb_refl (l : Link) : Link_eqb l l = true.
Proof. unfold Link_eqb. now rewrite !String.eqb_refl. Qed.

Lemma Error_Equal_refl (e : Error) : Error_Equal e e = true.
Proof.
  unfold Error_Equal; simpl.
  unfold DebugExtras_DeepEqual, HelpExtras_DeepEqual, RetryExtras_DeepEqual,
    valslice_DeepEqual.
  rewrite !String.eqb_refl, N.eqb_refl, Z.eqb_refl; simpl.
  destruct (Links (Help (Extras e))) as [l|]; [|reflexivity].
  now rewrite list_eqb_refl by apply Link_eqb_refl.
Qed.

(** [Equal] reads neither [Wrapped] nor [Extras.Tags]. *)
Lemma Error_Equal_set_Wrapped (e x : Error) (w : option error) :
  Error_Equal (set_Wrapped e w) x = Error_Equal e x.
Proof. reflexivity. Qed.

Lemma Error_Equal_WithTag (e x : Error) (tags : list string) :
  Error_Equal (Error_WithTag e tags) x = Error_Equal e x.
Proof. reflexivity. Qed.

(** [IsZero] compares a value of type [Error] with one of type [*Error],
    which [reflect.DeepEqual] never finds equal. *)
Lemma Error_IsZero_false (e : Error) : Error_IsZero e = false.
Proof. reflexivity. Qed.

Lemma Error_Wrap_Some (fuel : nat) (σ : store) (e : Error) (err : error) :
  Error_Wrap fuel σ e (Some err) = Ok (set_Wrapped e (Some err)).
Proof. unfold Error_Wrap. now rewrite Error_IsZero_false. Qed.

(** ** Wrap *)

Example IsZero_of_zero : Error_IsZero Error_zero = false.
Proof. reflexivity. Qed.

(** C3: at the zero receiver [Error{}] and a cause that is the Error
    [sample "cause" nil], [errors.As] extracts the cause's identity, and
    yet [Wrap] answers the zero identity wrapping the cause, which is not
    [Equal] to the cause: [IsZero] is false of the zero value, so the
    adoption branch of [Wrap] is not taken. *)
Theorem Wrap_zero_receiver_does_not_adopt :
  let e2 := sample "cause" None in
  Error_IsZero Error_zero = false /\
  errors_As_Error empty_store (Some (EError e2)) = Ok (Some e2) /\
  Error_Wrap 1 empty_store Error_zero (Some (EError e2))
    = Ok (set_Wrapped Error_zero (Some (EError e2))) /\
  Error_Equal (set_Wrapped Error_zero (Some (EError e2))) e2 = false.
Proof. repeat split. Qed.

(** C4: [e.Wrap(nil)] is [e]; and for a receiver that [IsZero] does not
    hold of, [e.Wrap(err).Unwrap()] is the very value [err]. *)
Theorem Wrap_nil_and_Unwrap (fuel : nat) (σ : store) (e : Error) :
  Error_Wrap fuel σ e None = Ok e /\
  forall err : error,
    Error_IsZero e = false ->
    exists e', Error_Wrap fuel σ e (Some err) = Ok e' /\
               Error_Unwrap e' = Some err.
Proof.
  split; [reflexivity|].
  intros err _. exists (set_Wrapped e (Some err)).
  split; [apply Error_Wrap_Some | reflexivity].
Qed.

Lemma Wrap_nil_and_Unwrap_witness :
  Error_IsZero (sample "a" None) = false /\
  exists e', Error_Wrap 0 empty_store (sample "a" None) (Some boom) = Ok e' /\
             Error_Unwrap e' = Some boom.
Proof.
  split; [reflexivity|].
  apply (proj2 (Wrap_nil_and_Unwrap 0 empty_store (sample "a" None)) boom).
  reflexivity.
Defined.

(** C10: wrapping a cause or adding tags leaves [Equal], and with it
    [Is], as it was: the result is [Equal] to the receiver, and [Is]
    answers on it what it answers on the receiver, for every target. *)
Theorem Equal_ignores_cause_and_tags
    (fuel : nat) (σ : store) (e : Error) (err : error) (tags : list string) :
  Error_IsZero e = false ->
  (exists e', Error_Wrap fuel σ e (Some err) = Ok e' /\
              Error_Equal e' e = true /\
              forall target, Error_Is σ e' target = Error_Is σ e target) /\
  Error_Equal (Error_WithTag e tags) e = true /\
  forall target, Error_Is σ (Error_WithTag e tags) target = Error_Is σ e target.
Proof.
  intros _. split; [|split].
  - exists (set_Wrapped e (Some err)). split; [apply Error_Wrap_Some|].
    split.
    + rewrite Error_Equal_set_Wrapped. apply Error_Equal_refl.
    + reflexivity.
  - rewrite Error_Equal_WithTag. apply Error_Equal_refl.
  - reflexivity.
Qed.

Lemma Equal_ignores_cause_and_tags_witness :
  Error_IsZero (sample "a" None) = false /\
  Error_Equal (Error_WithTag (sample "a" None) ["t1"; "t2"]) (sample "a" None) = true.
Proof.
  split; [reflexivity|].
  apply (Equal_ignores_cause_and_tags 0 empty_store (sample "a" None) boom ["t1"; "t2"]).
  reflexivity.
Defined.

(** ** Facts about results and the store *)

Lemma bind_Ok {A B : Type} (m : res A) (k : A -> res B) (b : B) :
  bind m k = Ok b -> exists a, m = Ok a /\ k a = Ok b.
Proof. destruct m as [a| |]; simpl; intros H; try discriminate. eauto. Qed.

Lemma must_Ok {A : Type} (o : option A) (a : A) : must o = Ok a -> o = Some a.
Proof. destruct o; simpl; intros H; now inversion H. Qed.

Ltac inv_bind H :=
  let x := fresh "x" in
  let Hx := fresh "Hx" in
  apply bind_Ok in H as (x & Hx & H).

Tactic Notation "inv_bind_as" hyp(H) ident(x) ident(Hx) :=
  apply bind_Ok in H as (x & Hx & H).

Lemma slice_elems_inv (σ : store) (s : slice) (xs : list Error) :
  slice_elems σ s = Ok xs ->
  (s_arr s = None /\ s_len s = 0 /\ xs = []) \/
  (exists a arr, s_arr s = Some a /\ arrays σ !! a = Some arr /\
                 s_off s + s_len s <= length arr /\
                 xs = take (s_len s) (drop (s_off s) arr)).
Proof.
  unfold slice_elems. destruct (s_arr s) as [a|].
  - intros H. right. inv_bind H. apply must_Ok in Hx.
    destruct (Nat.leb_spec (s_off s + s_len s) (length x)); [|discriminate].
    inversion H. eauto 10.
  - destruct (Nat.eqb_spec (s_len s) 0); [|discriminate].
    intros H. inversion H. auto.
Qed.

Lemma slice_elems_length (σ : store) (s : slice) (xs : list Error) :
  slice_elems σ s = Ok xs -> length xs = s_len s.
Proof.
  intros [(_ & Hl & ->)|(a & arr & _ & _ & Hle & ->)]%slice_elems_inv.
  - now rewrite Hl.
  - rewrite length_take, length_drop. lia.
Qed.

(** A slice reads the same in two stores that agree on its array. *)
Lemma slice_elems_frame (σ σ' : store) (s : slice) :
  (forall a, s_arr s = Some a -> arrays σ' !! a = arrays σ !! a) ->
  slice_elems σ' s = slice_elems σ s.
Proof.
  intros H. unfold slice_elems. destruct (s_arr s) as [a|]; [|reflexivity].
  now rewrite (H a eq_refl).
Qed.

Lemma slice_index_elems (σ : store) (s : slice) (xs : list Error) (i : nat) :
  slice_elems σ s = Ok xs -> slice_index σ s i = must (xs !! i).
Proof. intros H. unfold slice_index. now rewrite H. Qed.

Lemma slice_elems_fresh (σ : store) (arr : list Error) (n : nat) :
  n <= length arr ->
  slice_elems (mkStore (arrays σ ++ [arr]) (groups σ))
              (mkSlice (Some (length (arrays σ))) 0 n) = Ok (take n arr).
Proof.
  intros Hn. unfold slice_elems; simpl.
  rewrite list_lookup_middle by reflexivity. simpl.
  destruct (Nat.leb_spec n (length arr)); [|lia].
  now rewrite drop_0.
Qed.

(** What [append] does: the new slice holds the old elements and the
    new one; arrays other than the slice's own are left as they were; the
    result sits in the old array or in a newly allocated one. *)
Lemma slice_append_spec (σ : store) (s : slice) (e : Error) (xs : list Error) :
  slice_elems σ s = Ok xs ->
  exists s' σ',
    slice_append s e σ = Ok (s', σ') /\
    slice_elems σ' s' = Ok (xs ++ [e]) /\
    groups σ' = groups σ /\
    length (arrays σ) <= length (arrays σ') /\
    (forall b, b < length (arrays σ) -> s_arr s <> Some b ->
               arrays σ' !! b = arrays σ !! b) /\
    (s_arr s' = s_arr s \/ s_arr s' = Some (length (arrays σ))).
Proof.
  intros Hxs. pose proof (slice_elems_length _ _ _ Hxs) as Hlen.
  unfold slice_append. rewrite Hxs. simpl.
  set (newcap := growslice_cap (slice_cap σ s) (S (s_len s))).
  assert (Hgrown :
    slice_elems
      (mkStore (arrays σ ++ [xs ++ e :: replicate (newcap - S (s_len s)) Error_zero])
               (groups σ))
      (mkSlice (Some (length (arrays σ))) 0 (S (s_len s))) = Ok (xs ++ [e])).
  { rewrite slice_elems_fresh.
    - f_equal. rewrite (take_app_ge xs) by lia.
      rewrite Hlen. replace (S (s_len s) - s_len s) with 1 by lia.
      reflexivity.
    - rewrite length_app. simpl. lia. }
  assert (Hframe : forall b (arr : list Error), b < length (arrays σ) ->
            (arrays σ ++ [arr]) !! b = arrays σ !! b).
  { intros b arr Hb. now apply lookup_app_l. }
  destruct (slice_elems_inv _ _ _ Hxs) as [(Harr & _ & _)|(a & arr & Harr & Ha & Hle & Hx)].
  - rewrite Harr. eexists _, _. split; [reflexivity|].
    split; [exact Hgrown|]. simpl. rewrite length_app. simpl.
    repeat split; auto with lia.
  - rewrite Harr, Ha. simpl.
    destruct (Nat.ltb_spec (s_off s + s_len s) (length arr)) as [Hlt|Hge].
    + eexists _, _. split; [reflexivity|].
      unfold set_array; simpl.
      split; [|split; [reflexivity|split; [now rewrite length_insert|split]]].
      * unfold slice_elems; simpl.
        rewrite list_lookup_insert_eq by (apply lookup_lt_Some in Ha; lia).
        simpl. rewrite length_insert.
        destruct (Nat.leb_spec (s_off s + S (s_len s)) (length arr)); [|lia].
        f_equal. rewrite Hx.
        rewrite drop_insert_ge by lia.
        replace (s_off s + s_len s - s_off s) with (s_len s) by lia.
        rewrite (take_S_r _ _ e).
        -- now rewrite take_insert_ge by lia.
        -- apply list_lookup_insert_eq. rewrite length_drop. lia.
      * intros b Hb Hne. apply list_lookup_insert_ne. intros ->. now apply Hne.
      * now left.
    + eexists _, _. split; [reflexivity|].
      split; [exact Hgrown|]. simpl. rewrite length_app. simpl.
      repeat split; auto with lia.
Qed.

(** What [s[i] = e] does. *)
Lemma slice_set_spec (σ : store) (s : slice) (i : nat) (e : Error) (xs : list Error) :
  slice_elems σ s = Ok xs ->
  i < length xs ->
  exists σ',
    slice_set s i e σ = Ok σ' /\
    slice_elems σ' s = Ok (<[i := e]> xs) /\
    groups σ' = groups σ /\
    length (arrays σ') = length (arrays σ) /\
    (forall b, s_arr s <> Some b -> arrays σ' !! b = arrays σ !! b).
Proof.
  intros Hxs Hi. pose proof (slice_elems_length _ _ _ Hxs) as Hlen.
  unfold slice_set. rewrite Hxs. simpl.
  destruct (Nat.ltb_spec i (s_len s)); [|lia].
  destruct (slice_elems_inv _ _ _ Hxs) as [(_ & Hz & _)|(a & arr & Harr & Ha & Hle & Hx)];
    [lia|].
  rewrite Harr, Ha. simpl. eexists. split; [reflexivity|].
  unfold set_array; simpl.
  split; [|split; [reflexivity|split; [now rewrite length_insert|]]].
  - unfold slice_elems; simpl. rewrite Harr.
    rewrite list_lookup_insert_eq by (apply lookup_lt_Some in Ha; lia).
    simpl. rewrite length_insert.
    destruct (Nat.leb_spec (s_off s + s_len s) (length arr)); [|lia].
    f_equal. rewrite Hx.
    rewrite drop_insert_ge by lia.
    replace (s_off s + i - s_off s) with i by lia.
    now rewrite take_insert_lt by lia.
  - intros b Hne. apply list_lookup_insert_ne. intros ->. now apply Hne.
Qed.

Lemma group_elems_inv (σ : store) (g : option addr) (xs : list Error) :
  group_elems σ g = Ok xs ->
  exists a G, g = Some a /\ groups σ !! a = Some G /\ get_group σ g = Ok G /\
              slice_elems σ (Errors G) = Ok xs.
Proof.
  unfold group_elems. intros H. inv_bind H.
  destruct g as [a|]; [|discriminate].
  pose proof Hx as Hl. simpl in Hl. apply must_Ok in Hl. eauto 10.
Qed.

Lemma push_spec (σ : store) (g : option addr) (e : Error) (xs : list Error) :
  group_elems σ g = Ok xs ->
  exists σ',
    push g e σ = Ok σ' /\
    group_elems σ' g = Ok (xs ++ [e]) /\
    length (groups σ') = length (groups σ) /\
    (forall h, g <> Some h -> groups σ' !! h = groups σ !! h) /\
    length (arrays σ) <= length (arrays σ') /\
    forall a b, g = Some a -> b < length (arrays σ) -> group_array σ a <> Some b ->
                arrays σ' !! b = arrays σ !! b /\ group_array σ' a <> Some b.
Proof.
  intros (a & G & -> & Ha & HG & Hxs)%group_elems_inv.
  destruct (slice_append_spec σ (Errors G) e xs Hxs)
    as (s' & σ1 & Happ & Hxs' & Hgr & Hlen & Hfr & Hs').
  unfold push. rewrite HG. simpl. rewrite Happ. simpl.
  unfold set_Errors. simpl. rewrite Hgr, Ha. simpl.
  eexists. split; [reflexivity|].
  assert (Hlt : a < length (groups σ)) by now apply lookup_lt_Some in Ha.
  split; [|split; [|split; [|split]]].
  - unfold group_elems. simpl.
    rewrite list_lookup_insert_eq by assumption. simpl.
    rewrite <- Hxs'. now apply slice_elems_frame.
  - simpl. now rewrite length_insert.
  - intros h Hne. simpl. apply list_lookup_insert_ne. congruence.
  - exact Hlen.
  - intros a' b [= <-] Hb Hne. simpl.
    unfold group_array in *. simpl. rewrite Ha in Hne.
    split; [now apply Hfr|].
    rewrite list_lookup_insert_eq by assumption. simpl.
    destruct Hs' as [Hs'|Hs']; rewrite Hs'; [assumption|].
    intros [= Hb']. lia.
Qed.

(** [Append], one argument at a time. *)
Lemma Append_nil (fuel : nat) (g : option addr) (σ : store) :
  ErrorGroup_Append fuel g [] σ = Ok σ.
Proof. now destruct fuel. Qed.

Lemma Append_cons_nil (fuel : nat) (g : option addr) (rest : list (option error))
    (σ : store) :
  ErrorGroup_Append fuel g (None :: rest) σ = ErrorGroup_Append fuel g rest σ.
Proof. now destruct fuel. Qed.

Lemma push_bind {B : Type} (g : option addr) (e : Error) (σ : store)
    (k : store -> res B) :
  (let* G := get_group σ g in
   let* (s', σ1) := slice_append (Errors G) e σ in
   let* σ2 := set_Errors g s' σ1 in
   k σ2) = bind (push g e σ) k.
Proof.
  unfold push. destruct (get_group σ g) as [G| |]; simpl; try reflexivity.
  destruct (slice_append (Errors G) e σ) as [[s' σ1]| |]; simpl; try reflexivity.
  destruct (set_Errors g s' σ1) as [σ2| |]; reflexivity.
Qed.

Lemma Append_cons (fuel : nat) (g : option addr) (err : error)
    (rest : list (option error)) (σ : store) :
  ErrorGroup_Append fuel g (Some err :: rest) σ =
  let* found := errors_As_ErrorGroup fuel σ (Some err) in
  match found with
  | Some eg =>
      let* G := get_group σ eg in
      let* xs := slice_elems σ (Errors G) in
      match fuel with
      | 0 => OutOfFuel
      | S fuel' =>
          let* σ1 := ErrorGroup_Append fuel' g (SliceTypeAssert xs) σ in
          ErrorGroup_Append fuel g rest σ1
      end
  | None =>
      let* r := errors_As_Error σ (Some err) in
      let* σ1 :=
        push g (match r with
                | Some e => e
                | None => set_Wrapped ErrUndefined (Some err)
                end) σ in
      ErrorGroup_Append fuel g rest σ1
  end.
Proof.
  transitivity
    (let* found := errors_As_ErrorGroup fuel σ (Some err) in
     match found with
     | Some eg =>
         let* G := get_group σ eg in
         let* xs := slice_elems σ (Errors G) in
         match fuel with
         | 0 => OutOfFuel
         | S fuel' =>
             let* σ1 := ErrorGroup_Append fuel' g (SliceTypeAssert xs) σ in
             ErrorGroup_Append fuel g rest σ1
         end
     | None =>
         let* r := errors_As_Error σ (Some err) in
         let* e :=
           match r with
           | Some e => Ok e
           | None => Error_Wrap fuel σ ErrUndefined (Some err)
           end in
         let* G := get_group σ g in
         let* (s', σ1) := slice_append (Errors G) e σ in
         let* σ2 := set_Errors g s' σ1 in
         ErrorGroup_Append fuel g rest σ2
     end).
  { destruct fuel; reflexivity. }
  destruct (errors_As_ErrorGroup fuel σ (Some err)) as [[eg|]| |]; try reflexivity.
  cbn [bind]. destruct (errors_As_Error σ (Some err)) as [[e|]| |]; try reflexivity.
  - cbn [bind]. apply push_bind.
  - cbn [bind]. rewrite Error_Wrap_Some. cbn [bind]. apply push_bind.
Qed.

(** Anything that every [push] on [g] keeps, [Append] on [g] keeps. *)
Lemma Append_preserves (P : store -> Prop) (g : option addr) :
  (forall σ e σ', P σ -> push g e σ = Ok σ' -> P σ') ->
  forall fuel errs σ σ',
    P σ -> ErrorGroup_Append fuel g errs σ = Ok σ' -> P σ'.
Proof.
  intros Hpush. induction fuel as [|fuel IHfuel];
    induction errs as [|[err|] rest IH]; intros σ σ' HP H.
  - rewrite Append_nil in H. now simplify_eq.
  - rewrite Append_cons in H. inv_bind H. destruct x as [eg|].
    + inv_bind H. inv_bind H. discriminate.
    + inv_bind H. inv_bind H. eauto.
  - rewrite Append_cons_nil in H. eauto.
  - rewrite Append_nil in H. now simplify_eq.
  - rewrite Append_cons in H. inv_bind H. destruct x as [eg|].
    + inv_bind H. inv_bind H. inv_bind H. eauto.
    + inv_bind H. inv_bind H. eauto.
  - rewrite Append_cons_nil in H. eauto.
Qed.

(** ** Errors with nothing of this package's heap along their chain *)

(** Induction on an error along its unwrap chain. *)
Lemma error_chain_ind (P : error -> Prop) :
  (forall e : Error, (forall w, Wrapped e = Some w -> P w) -> P (EError e)) ->
  (forall p, P (EGroup p)) ->
  (forall c, P (EChain c)) ->
  (forall id msg cause, (forall w, cause = Some w -> P w) -> P (EForeign id msg cause)) ->
  forall err, P err.
Proof.
  intros HE HG HC HF. fix IH 1. intros [e|p|c|id msg cause].
  - apply HE. destruct e as [c x f m n [w|]]; simpl; intros w' Hw.
    + injection Hw as <-. apply IH.
    + discriminate.
  - apply HG.
  - apply HC.
  - apply HF. destruct cause as [w|]; intros w' Hw.
    + injection Hw as <-. apply IH.
    + discriminate.
Qed.

Lemma plain_as_ErrorGroup (fuel : nat) (σ : store) (err : error) :
  plain err = true -> as_ErrorGroup fuel σ err = Ok None.
Proof.
  induction err as [e IH|p|c|id msg cause IH] using error_chain_ind;
    intros H; simpl in H; try discriminate.
  - destruct fuel; simpl; destruct (Wrapped e) as [w|]; auto.
  - destruct fuel; simpl; destruct cause as [w|]; auto.
Qed.

Lemma plain_as_Error (σ : store) (err : error) :
  plain err = true -> as_Error σ err = Ok (first_Error err).
Proof.
  induction err as [e IH|p|c|id msg cause IH] using error_chain_ind;
    intros H; simpl in H; try discriminate.
  - reflexivity.
  - simpl; destruct cause as [w|]; auto.
Qed.

Lemma Append_plain (fuel : nat) (g : option addr) (ws : list error) :
  Forall (fun w => plain w = true) ws ->
  forall σ xs,
    group_elems σ g = Ok xs ->
    exists σ',
      ErrorGroup_Append fuel g (map Some ws) σ = Ok σ' /\
      group_elems σ' g = Ok (xs ++ map narrowed ws).
Proof.
  induction 1 as [|w ws Hw _ IH]; intros σ xs Hxs.
  - exists σ. rewrite Append_nil, app_nil_r. auto.
  - destruct (push_spec σ g (narrowed w) xs Hxs) as (σ1 & Hpush & Hxs1 & _).
    destruct (IH σ1 _ Hxs1) as (σ' & Happ & Hxs').
    exists σ'. rewrite <- app_assoc in Hxs'. split; [|exact Hxs'].
    cbn [map]. rewrite Append_cons. unfold errors_As_ErrorGroup, errors_As_Error.
    rewrite plain_as_ErrorGroup by assumption. cbn [bind].
    rewrite plain_as_Error by assumption. cbn [bind].
    fold (narrowed w). now rewrite Hpush.
Qed.

(** ** Append flattens a group *)

Lemma Append_group (fuel : nat) (σ : store) (g h : option addr)
    (xs ys : list Error) :
  group_elems σ g = Ok xs ->
  group_elems σ h = Ok ys ->
  Forall (fun y => plain (EError y) = true) ys ->
  exists σ',
    ErrorGroup_Append (S fuel) g [Some (EGroup h)] σ = Ok σ' /\
    group_elems σ' g = Ok (xs ++ ys).
Proof.
  intros Hg (a & H & -> & _ & HH & Hys)%group_elems_inv Hplain.
  destruct (Append_plain fuel g (map EError ys)) with (σ := σ) (xs := xs)
    as (σ' & Happ & Hxs'); [|assumption|].
  { now apply Forall_map. }
  exists σ'. rewrite Append_cons. cbn [errors_As_ErrorGroup as_ErrorGroup bind].
  rewrite HH. cbn [bind]. rewrite Hys. cbn [bind].
  unfold SliceTypeAssert. rewrite <- (map_map EError Some), Happ. cbn [bind].
  rewrite Append_nil. split; [reflexivity|].
  rewrite Hxs'. do 2 f_equal. rewrite map_map. apply map_id.
Qed.

Example Append_nested_store :
  exists σ',
    ErrorGroup_Append 2 (Some 2) [Some (EGroup (Some 1))] nested_store = Ok σ' /\
    group_elems σ' (Some 2) = Ok [sample "c" None; sample "d" None; sample "b" None].
Proof. eexists. split; vm_compute; reflexivity. Qed.

(** C6 as stated does not hold: appending the group [a, b] to the group
    [c] gives [c, d, b] when [a] wraps a group holding [d]; [errors.As]
    finds that group along [a]'s chain and [Append] flattens it in place
    of [a]. *)
Lemma Append_flattens_wrapped_group_too :
  ~ (forall fuel σ g h c a b σ',
       group_elems σ g = Ok [c] ->
       group_elems σ h = Ok [a; b] ->
       ErrorGroup_Append fuel g [Some (EGroup h)] σ = Ok σ' ->
       group_elems σ' g = Ok [c; a; b]).
Proof.
  intros H.
  destruct (ErrorGroup_Append 2 (Some 2) [Some (EGroup (Some 1))] nested_store)
    as [σ'| |] eqn:Happ; try (vm_compute in Happ; discriminate).
  specialize (H 2 nested_store (Some 2) (Some 1)
                (sample "c" None) nested_a (sample "b" None) σ'
                eq_refl eq_refl Happ).
  vm_compute in Happ. injection Happ as <-.
  vm_compute in H. discriminate.
Qed.

(** C6 (amended): for a group [g] holding [c] and a group [h] holding
    [a, b], where neither [a] nor [b] has a group or a chain along its
    wrap chain, [g.Append(h)] returns and leaves [g] holding [c, a, b]. *)
Theorem Append_flattens_group (fuel : nat) (σ : store) (g h : option addr)
    (c a b : Error) :
  group_elems σ g = Ok [c] ->
  group_elems σ h = Ok [a; b] ->
  plain (EError a) = true ->
  plain (EError b) = true ->
  exists σ',
    ErrorGroup_Append (S fuel) g [Some (EGroup h)] σ = Ok σ' /\
    group_elems σ' g = Ok [c; a; b].
Proof.
  intros Hg Hh Ha Hb.
  apply (Append_group fuel σ g h [c] [a; b] Hg Hh).
  now repeat constructor.
Qed.

Lemma Append_flattens_group_witness :
  exists σ',
    ErrorGroup_Append 1 (Some 0) [Some (EGroup (Some 1))] flat_store = Ok σ' /\
    group_elems σ' (Some 0)
      = Ok [sample "c" None; sample "a" (Some boom); sample "b" None].
Proof.
  apply (Append_flattens_group 0 flat_store (Some 0) (Some 1)
           (sample "c" None) (sample "a" (Some boom)) (sample "b" None));
    reflexivity.
Defined.

(** ** AsGroup *)

Lemma opaque_plain (err : error) : opaque err = true -> plain err = true.
Proof.
  induction err as [e IH|p|c|id msg cause IH] using error_chain_ind;
    intros H; simpl in H; try discriminate.
  simpl. destruct cause as [w|]; auto.
Qed.

Lemma opaque_first_Error (err : error) : opaque err = true -> first_Error err = None.
Proof.
  induction err as [e IH|p|c|id msg cause IH] using error_chain_ind;
    intros H; simpl in H; try discriminate.
  simpl. destruct cause as [w|]; auto.
Qed.

Lemma opaque_as_Error (σ : store) (err : error) :
  opaque err = true -> as_Error σ err = Ok None.
Proof.
  intros H. rewrite plain_as_Error by now apply opaque_plain.
  now rewrite opaque_first_Error.
Qed.

Lemma terminal_plain (err t : error) :
  terminal_from err = Some t -> opaque t = true -> plain err = true.
Proof.
  induction err as [e IH|p|c|id msg cause IH] using error_chain_ind;
    simpl; intros Ht Hop.
  - destruct (Wrapped e) as [w|]; [eauto|discriminate].
  - injection Ht as <-. discriminate.
  - injection Ht as <-. discriminate.
  - injection Ht as <-. now apply opaque_plain in Hop.
Qed.

Lemma group_elems_new (σ : store) (n : nat) (f : formatter) :
  let '(s, σ1) := make_slice 0 n σ in
  let '(g, σ2) := new_group (mkErrorGroup s f) σ1 in
  g = length (groups σ) /\ group_elems σ2 (Some g) = Ok [].
Proof.
  simpl. split; [reflexivity|].
  unfold group_elems, get_group; simpl.
  rewrite list_lookup_middle by reflexivity. simpl.
  unfold slice_elems; simpl.
  rewrite list_lookup_middle by reflexivity. reflexivity.
Qed.

Lemma AsGroup_loop_spec (t : error) (g : addr) :
  opaque t = true ->
  forall fuel err σ xs,
    terminal err = Some t ->
    length (links err) <= fuel ->
    group_elems σ (Some g) = Ok xs ->
    exists σ',
      AsGroup_loop fuel g err σ = Ok σ' /\
      group_elems σ' (Some g)
        = Ok (xs ++ tail (links err) ++ [set_Wrapped ErrUndefined (Some t)]).
Proof.
  intros Hop. induction fuel as [|fuel IH]; intros err σ xs Ht Hlen Hxs.
  - simpl in Hlen. lia.
  - unfold terminal in Ht. unfold links in *. simpl in Ht, Hlen |- *.
    destruct (Wrapped err) as [w|] eqn:Hw; [|discriminate].
    assert (Hplain : plain w = true) by now apply (terminal_plain w t).
    destruct (Append_plain fuel (Some g) [w]) with (σ := σ) (xs := xs)
      as (σ1 & Happ & Hxs1); [now constructor|assumption|].
    simpl in Happ. rewrite Happ. cbn [bind].
    rewrite plain_as_Error by assumption. cbn [bind].
    destruct w as [e'|p|c|id msg cause].
    + simpl. destruct (IH e' σ1 (xs ++ [e'])) as (σ' & Hloop & Hxs').
      * exact Ht.
      * simpl in Hlen |- *. lia.
      * exact Hxs1.
      * exists σ'. split; [exact Hloop|]. rewrite Hxs'.
        unfold links. simpl. now rewrite <- app_assoc.
    + discriminate.
    + discriminate.
    + simpl in Ht. injection Ht as <-.
      rewrite (opaque_first_Error _ Hop). exists σ1. split; [reflexivity|].
      rewrite Hxs1. cbn [map links_from]. unfold narrowed.
      now rewrite (opaque_first_Error _ Hop).
Qed.

Example links_chain_e1 :
  links chain_e1 = [chain_e1; chain_e2] /\ terminal chain_e1 = Some boom.
Proof. split; reflexivity. Qed.

Example AsGroup_chain_e1 :
  exists g σ',
    Error_AsGroup 2 chain_e1 empty_store = Ok (g, σ') /\
    group_elems σ' (Some g)
      = Ok [chain_e1; chain_e2; set_Wrapped ErrUndefined (Some boom)].
Proof. eexists _, _. split; vm_compute; reflexivity. Qed.

(** C1 as stated does not hold: on [e1 -> e2 -> boom] the group is
    [e1, e2, ErrUndefined.Wrap(boom)], not [e1, e2]: the loop of [AsGroup]
    appends every wrapped value before it asks whether that value
    is an [Error], and [Append] stores a value that is not one under
    [ErrUndefined]. *)
Lemma AsGroup_includes_terminal_cause :
  ~ (forall fuel σ e t g σ',
       terminal e = Some t ->
       Error_AsGroup fuel e σ = Ok (g, σ') ->
       group_elems σ' (Some g) = Ok (links e)).
Proof.
  intros H.
  destruct (Error_AsGroup 2 chain_e1 empty_store) as [[g σ']| |] eqn:Has;
    try (vm_compute in Has; discriminate).
  specialize (H 2 empty_store chain_e1 boom g σ' eq_refl Has).
  vm_compute in Has. injection Has as <- <-.
  vm_compute in H. discriminate.
Qed.

(** C1 (amended): for an [Error] whose chain of directly wrapped [Error]s
    ends in a terminal cause [t] that is a foreign error with only foreign
    errors beneath it, [AsGroup] (given fuel for the length of the chain)
    returns a new group whose elements are the links of the chain, root
    first, followed by [ErrUndefined.Wrap(t)]. *)
Theorem AsGroup_links_then_wrapped_terminal
    (fuel : nat) (σ : store) (e : Error) (t : error) :
  terminal e = Some t ->
  opaque t = true ->
  length (links e) <= fuel ->
  exists g σ',
    Error_AsGroup fuel e σ = Ok (g, σ') /\
    g = length (groups σ) /\
    group_elems σ' (Some g)
      = Ok (links e ++ [set_Wrapped ErrUndefined (Some t)]).
Proof.
  intros Ht Hop Hlen. unfold Error_AsGroup, NewErrorGroup.
  pose proof (group_elems_new σ 1 FmtDefault) as Hnew.
  cbn [length]. destruct (make_slice 0 1 σ) as [s σ1].
  destruct (new_group (mkErrorGroup s FmtDefault) σ1) as [g σ2].
  destruct Hnew as [Hg Hnil].
  assert (Hplain : plain (EError e) = true) by now apply (terminal_plain _ t).
  destruct (Append_plain fuel (Some g) [EError e]) with (σ := σ2) (xs := @nil Error)
    as (σ3 & Happ & Hxs3); [now constructor|assumption|].
  simpl in Happ, Hxs3. rewrite Happ. cbn [bind].
  destruct (AsGroup_loop_spec t g Hop fuel e σ3 [e] Ht Hlen Hxs3)
    as (σ' & Hloop & Hxs').
  rewrite Hloop. cbn [bind]. exists g, σ'. split; [reflexivity|].
  split; [exact Hg|]. rewrite Hxs'. unfold links. reflexivity.
Qed.

Lemma AsGroup_links_then_wrapped_terminal_witness :
  exists g σ',
    Error_AsGroup 2 chain_e1 empty_store = Ok (g, σ') /\
    g = 0 /\
    group_elems σ' (Some g)
      = Ok [chain_e1; chain_e2; set_Wrapped ErrUndefined (Some boom)].
Proof.
  apply (AsGroup_links_then_wrapped_terminal 2 empty_store chain_e1 boom).
  - reflexivity.
  - reflexivity.
  - simpl. lia.
Defined.

(** ** Copy *)

Lemma first_Error_plain (w : error) (x : Error) :
  plain w = true -> first_Error w = Some x ->
  plain (EError x) = true /\ depth (EError x) <= depth w.
Proof.
  induction w as [e IH|p|c|id msg cause IH] using error_chain_ind;
    intros Hp Hf; simpl in Hp, Hf; try discriminate.
  - injection Hf as <-. auto.
  - destruct cause as [w|]; [|discriminate].
    destruct (IH w eq_refl Hp Hf) as [Hpx Hd]. split; [exact Hpx|].
    cbn [depth] in *. lia.
Qed.

(** On an [Error] with no group and no chain along its wrap chain, [Copy]
    returns, given fuel for the length of the chain, an [Error] that is
    [Equal] to the receiver. *)
Lemma Copy_plain (σ : store) (fuel : nat) :
  forall e : Error,
    plain (EError e) = true ->
    depth (EError e) <= S fuel ->
    exists c, Error_Copy fuel σ e = Ok c /\ Error_Equal c e = true.
Proof.
  induction fuel as [|fuel IH]; intros e Hp Hd; simpl in Hp, Hd |- *.
  - destruct (Wrapped e) as [w|] eqn:Hw.
    + destruct w; simpl in Hd; lia.
    + eexists. split; [reflexivity|]. exact (Error_Equal_refl e).
  - destruct (Wrapped e) as [w|] eqn:Hw.
    + rewrite plain_as_Error by assumption. cbn [bind].
      destruct (first_Error w) as [x|] eqn:Hx.
      * destruct (first_Error_plain w x Hp Hx) as [Hpx Hdx].
        destruct (IH x Hpx) as (c & -> & _); [lia|]. cbn [bind].
        eexists. split; [reflexivity|]. exact (Error_Equal_refl e).
      * eexists. split; [reflexivity|]. exact (Error_Equal_refl e).
    + eexists. split; [reflexivity|]. exact (Error_Equal_refl e).
Qed.

(** C5: at the receiver [sample "a"] whose cause is
    [fmt.Errorf("ctx: %w", inner)], a value that is not itself an [Error],
    [errors.As] reaches the [Error] [inner] through the wrapper and [Copy]
    returns an [Error] whose cause is the copy of [inner]: the wrapper is
    dropped, and the cause is not the reference the receiver held.  With
    the cause [errors.New("boom")], which holds no [Error], the other
    branch of [Copy] keeps the cause as it is. *)
Theorem Copy_drops_wrapper_around_Error :
  let e := sample "a" (Some ctx_inner) in
  Wrapped e = Some ctx_inner /\
  is_Error_value ctx_inner = false /\
  errors_As_Error empty_store (Some ctx_inner) = Ok (Some inner) /\
  Error_Copy 1 empty_store e = Ok (sample "a" (Some (EError inner))) /\
  Some (EError inner) <> Wrapped e /\
  Error_Copy 1 empty_store (sample "a" (Some boom)) = Ok (sample "a" (Some boom)).
Proof. repeat split. discriminate. Qed.

(** ** Empty and nil groups *)

Example Error_nil_group : ErrorGroup_Error 0 empty_store None = Panic.
Proof. reflexivity. Qed.

Example ErrorOrNil_nil_group : ErrorGroup_ErrorOrNil empty_store None = Ok None.
Proof. reflexivity. Qed.

Example Empty_nil_group : ErrorGroup_Empty empty_store None = Ok true.
Proof. reflexivity. Qed.

(** C2 as stated does not hold: [Error()] on a nil group reference
    dereferences it ([g.Formatter]) and panics. *)
Lemma Error_on_nil_group_panics :
  ~ (forall fuel σ g,
       g = None \/ group_elems σ g = Ok [] ->
       ErrorGroup_Error fuel σ g = Ok "" /\
       ErrorGroup_ErrorOrNil σ g = Ok None /\
       ErrorGroup_Empty σ g = Ok true).
Proof.
  intros H.
  destruct (H 0 empty_store None (or_introl eq_refl)) as [HError _].
  discriminate.
Qed.

(** C2 (amended): for a group reference that is nil or holds no element,
    [ErrorOrNil()] is nil and [Empty()] is true; and [Error()] is the
    empty string when the reference is not nil and the group's formatter
    is the default one. *)
Theorem empty_group_calls (fuel : nat) (σ : store) (g : option addr) :
  g = None \/ group_elems σ g = Ok [] ->
  ErrorGroup_ErrorOrNil σ g = Ok None /\
  ErrorGroup_Empty σ g = Ok true /\
  forall G, get_group σ g = Ok G -> Formatter G = FmtDefault ->
            ErrorGroup_Error fuel σ g = Ok "".
Proof.
  intros [->|Hempty].
  - repeat split. intros G HG. discriminate.
  - destruct (group_elems_inv _ _ _ Hempty) as (a & G & -> & Ha & HG & Hxs).
    pose proof (slice_elems_length _ _ _ Hxs) as Hlen. simpl in Hlen.
    split; [|split].
    + unfold ErrorGroup_ErrorOrNil. rewrite HG. cbn [bind].
      rewrite <- Hlen. simpl. now rewrite orb_true_r.
    + unfold ErrorGroup_Empty. rewrite HG. cbn [bind]. now rewrite <- Hlen.
    + intros G' HG' Hfmt. rewrite HG in HG'. injection HG' as <-.
      unfold ErrorGroup_Error.
      destruct fuel; simpl; rewrite Ha; simpl; rewrite Hxs; simpl;
        rewrite Hfmt; reflexivity.
Qed.

Lemma empty_group_calls_witness :
  ErrorGroup_ErrorOrNil empty_group_store (Some 0) = Ok None /\
  ErrorGroup_Empty empty_group_store (Some 0) = Ok true /\
  ErrorGroup_Error 0 empty_group_store (Some 0) = Ok "".
Proof.
  destruct (empty_group_calls 0 empty_group_store (Some 0) (or_intror eq_refl))
    as (H1 & H2 & H3).
  split; [exact H1|split; [exact H2|]].
  now apply (H3 (mkErrorGroup (mkSlice (Some 0) 0 0) FmtDefault)).
Defined.

(** ** errorChain *)

Lemma slice_tail_elems (σ : store) (c : slice) (x : Error) (xs : list Error) :
  slice_elems σ c = Ok (x :: xs) -> slice_elems σ (slice_tail c) = Ok xs.
Proof.
  intros H. pose proof (slice_elems_length _ _ _ H) as Hlen. simpl in Hlen.
  destruct (slice_elems_inv _ _ _ H) as [(_ & _ & ?)|(a & arr & Harr & Ha & Hle & Hx)];
    [discriminate|].
  unfold slice_elems, slice_tail; cbn [s_arr s_off s_len].
  rewrite Harr, Ha. cbn [must bind].
  assert (Hle' : S (s_off c) + (s_len c - 1) <= length arr) by lia.
  apply Nat.leb_le in Hle'. rewrite Hle'. f_equal.
  rewrite <- Hlen in Hx |- *. cbn [take] in Hx.
  replace (S (length xs) - 1) with (length xs) by lia.
  replace (S (s_off c)) with (s_off c + 1) by lia.
  rewrite <- drop_drop.
  destruct (drop (s_off c) arr) as [|y l]; [discriminate|].
  cbn [drop]. rewrite drop_0. now injection Hx.
Qed.

Lemma errorChain_Is_head (fuel : nat) (σ : store) (c : slice) (x : Error)
    (xs : list Error) (target : option error) :
  slice_elems σ c = Ok (x :: xs) ->
  errorChain_Is fuel σ c target = errors_Is fuel σ (Some (EError x)) target.
Proof.
  intros H. pose proof (slice_elems_length _ _ _ H) as Hlen. simpl in Hlen.
  unfold errorChain_Is. rewrite <- Hlen. simpl.
  now rewrite (slice_index_elems _ _ _ _ H).
Qed.

(** C8: from a chain over [a, b], [Unwrap()] gives a chain over [b],
    whose [Unwrap()] gives nil; and at either step [Is] answers what
    [errors.Is] answers on the head of the chain at that step. *)
Theorem errorChain_two_steps (σ : store) (c : slice) (a b : Error) :
  slice_elems σ c = Ok [a; b] ->
  exists c',
    errorChain_Unwrap c = Some (EChain c') /\
    slice_elems σ c' = Ok [b] /\
    errorChain_Unwrap c' = None /\
    forall fuel target,
      errorChain_Is fuel σ c target = errors_Is fuel σ (Some (EError a)) target /\
      errorChain_Is fuel σ c' target = errors_Is fuel σ (Some (EError b)) target.
Proof.
  intros H. pose proof (slice_elems_length _ _ _ H) as Hlen. simpl in Hlen.
  pose proof (slice_tail_elems _ _ _ _ H) as Htail.
  exists (slice_tail c). split; [|split; [|split]].
  - unfold errorChain_Unwrap. now rewrite <- Hlen.
  - exact Htail.
  - unfold errorChain_Unwrap, slice_tail. cbn [s_len]. now rewrite <- Hlen.
  - intros fuel target. split.
    + now apply errorChain_Is_head with (xs := [b]).
    + now apply errorChain_Is_head with (xs := []).
Qed.

Lemma errorChain_two_steps_witness :
  exists c',
    errorChain_Unwrap (mkSlice (Some 0) 0 2) = Some (EChain c') /\
    slice_elems two_store c' = Ok [sample "b" None] /\
    errorChain_Unwrap c' = None /\
    forall fuel target,
      errorChain_Is fuel two_store (mkSlice (Some 0) 0 2) target
        = errors_Is fuel two_store (Some (EError (sample "a" None))) target /\
      errorChain_Is fuel two_store c' target
        = errors_Is fuel two_store (Some (EError (sample "b" None))) target.
Proof.
  apply (errorChain_two_steps two_store (mkSlice (Some 0) 0 2)
           (sample "a" None) (sample "b" None)).
  reflexivity.
Defined.

(** ** Translate *)

Lemma Wrap_ErrUndefined (fuel : nat) (σ : store) (t : option error) :
  Error_Wrap fuel σ ErrUndefined t = Ok (set_Wrapped ErrUndefined t).
Proof. destruct t as [w|]; [apply Error_Wrap_Some|reflexivity]. Qed.

Lemma Translate_loop_eq (n fuel : nat) (g : option addr) (translate : ErrorTranslate)
    (i : nat) (σ : store) :
  Translate_loop n fuel g translate i σ =
  let* len := ErrorGroup_Len σ g in
  if i <? len then
    match n with
    | 0 => OutOfFuel
    | S n' =>
        let* G := get_group σ g in
        let* x := slice_index σ (Errors G) i in
        let* r := errors_As_Error σ (translate (EError x)) in
        let* σ1 :=
          slice_set (Errors G) i
            (match r with
             | Some e => e
             | None => set_Wrapped ErrUndefined (translate (EError x))
             end) σ in
        Translate_loop n' fuel g translate (S i) σ1
    end
  else Ok σ.
Proof.
  destruct n; [reflexivity|]. simpl.
  destruct (ErrorGroup_Len σ g) as [len| |]; simpl; try reflexivity.
  destruct (i <? len); [|reflexivity].
  destruct (get_group σ g) as [G| |]; simpl; try reflexivity.
  destruct (slice_index σ (Errors G) i) as [x| |]; simpl; try reflexivity.
  destruct (errors_As_Error σ (translate (EError x))) as [[e|]| |]; simpl;
    try reflexivity.
  now rewrite Wrap_ErrUndefined.
Qed.

Lemma insert_middle (done rest : list Error) (x e : Error) :
  <[length done := e]> (done ++ x :: rest) = (done ++ [e]) ++ rest.
Proof.
  rewrite <- app_assoc. simpl.
  replace (length done) with (length done + 0) by lia.
  now rewrite insert_app_r.
Qed.

(** The loop of [Translate] on the group [G] at [a], with the elements
    before index [length done] already translated. *)
Section TranslateLoop.

Variables (fuel : nat) (translate : ErrorTranslate) (a : addr) (G : ErrorGroup).

Lemma Translate_loop_inv (rest : list Error) :
  forall n done σ σ',
    groups σ !! a = Some G ->
    slice_elems σ (Errors G) = Ok (done ++ rest) ->
    Translate_loop n fuel (Some a) translate (length done) σ = Ok σ' ->
    exists done',
      Forall2 (translates translate) rest done' /\
      groups σ' !! a = Some G /\
      slice_elems σ' (Errors G) = Ok (done ++ done').
Proof.
  induction rest as [|x rest IH]; intros n done σ σ' Ha Hxs H;
    pose proof (slice_elems_length _ _ _ Hxs) as Hlen;
    rewrite length_app in Hlen; simpl in Hlen;
    rewrite Translate_loop_eq in H;
    unfold ErrorGroup_Len, get_group in H; rewrite Ha in H; cbn [must bind] in H.
  - destruct (Nat.ltb_spec (length done) (s_len (Errors G))); [lia|].
    injection H as <-. exists []. split; [constructor|]. auto.
  - destruct (Nat.ltb_spec (length done) (s_len (Errors G))); [|lia].
    destruct n as [|n]; [discriminate|].
    rewrite (slice_index_elems _ _ _ _ Hxs), list_lookup_middle in H by reflexivity.
    cbn [must bind] in H. inv_bind_as H r Hr. inv_bind_as H σ1' Hset'.
    set (e := match r with
              | Some e => e
              | None => set_Wrapped ErrUndefined (translate (EError x))
              end) in *.
    destruct (slice_set_spec σ (Errors G) (length done) e _ Hxs)
      as (σ1 & Hset & Hxs1 & Hgr & _); [rewrite length_app; simpl; lia|].
    rewrite Hset in Hset'. injection Hset' as <-.
    rewrite insert_middle in Hxs1.
    destruct (IH n (done ++ [e]) σ1 σ') as (done' & HR & Ha' & Hxs');
      [now rewrite Hgr|exact Hxs1|rewrite length_app; simpl;
       now replace (length done + 1) with (S (length done)) by lia|].
    exists (e :: done'). split; [|split; [exact Ha'|]].
    + constructor; [|exact HR]. now exists σ, r.
    + now rewrite <- app_assoc in Hxs'.
Qed.

Lemma Translate_loop_total (rest : list Error) :
  (forall σ0 x, exists r, errors_As_Error σ0 (translate (EError x)) = Ok r) ->
  forall n done σ,
    length rest <= n ->
    groups σ !! a = Some G ->
    slice_elems σ (Errors G) = Ok (done ++ rest) ->
    exists σ', Translate_loop n fuel (Some a) translate (length done) σ = Ok σ'.
Proof.
  intros Hret. induction rest as [|x rest IH]; intros n done σ Hn Ha Hxs;
    pose proof (slice_elems_length _ _ _ Hxs) as Hlen;
    rewrite length_app in Hlen; simpl in Hlen, Hn;
    rewrite Translate_loop_eq;
    unfold ErrorGroup_Len, get_group; rewrite Ha; cbn [must bind].
  - destruct (Nat.ltb_spec (length done) (s_len (Errors G))); [lia|]. eauto.
  - destruct (Nat.ltb_spec (length done) (s_len (Errors G))); [|lia].
    destruct n as [|n]; [lia|].
    rewrite (slice_index_elems _ _ _ _ Hxs), list_lookup_middle by reflexivity.
    cbn [must bind]. destruct (Hret σ x) as [r ->]. cbn [bind].
    set (e := match r with
              | Some e => e
              | None => set_Wrapped ErrUndefined (translate (EError x))
              end).
    destruct (slice_set_spec σ (Errors G) (length done) e _ Hxs)
      as (σ1 & Hset & Hxs1 & Hgr & _); [rewrite length_app; simpl; lia|].
    rewrite Hset. cbn [bind]. rewrite insert_middle in Hxs1.
    destruct (IH n (done ++ [e]) σ1) as [σ' Hloop];
      [lia|now rewrite Hgr|exact Hxs1|].
    exists σ'. rewrite <- Hloop. f_equal. rewrite length_app. simpl. lia.
Qed.

End TranslateLoop.

Example Translate_add_context :
  exists σ',
    ErrorGroup_Translate 0 (Some 1) add_context flat_store = Ok σ' /\
    group_elems σ' (Some 1) = Ok [sample "a" (Some boom); sample "b" None].
Proof. eexists. split; vm_compute; reflexivity. Qed.

(** One turn of the loop of [Translate] with a closure. *)
Lemma Translate_closure_loop_eq (n fuel : nat) (g : option addr)
    (fn : ErrorTranslateClosure) (i : nat) (σ : store) :
  Translate_closure_loop n fuel g fn i σ =
  let* len := ErrorGroup_Len σ g in
  if i <? len then
    match n with
    | 0 => OutOfFuel
    | S n' =>
        let* G := get_group σ g in
        let* x := slice_index σ (Errors G) i in
        let* (t, σ1) := fn (EError x) σ in
        let* r := errors_As_Error σ1 t in
        let* σ2 := set_element g i (stored (t, r)) σ1 in
        Translate_closure_loop n' fuel g fn (S i) σ2
    end
  else Ok σ.
Proof.
  destruct n; [reflexivity|]. simpl.
  destruct (ErrorGroup_Len σ g) as [len| |]; simpl; try reflexivity.
  destruct (i <? len); [|reflexivity].
  destruct (get_group σ g) as [G| |]; simpl; try reflexivity.
  destruct (slice_index σ (Errors G) i) as [x| |]; simpl; try reflexivity.
  destruct (fn (EError x) σ) as [[t σ1]| |]; simpl; try reflexivity.
  destruct (errors_As_Error σ1 t) as [[e|]| |]; simpl; try reflexivity.
  now rewrite Wrap_ErrUndefined.
Qed.

(** With a translation that writes nothing, the loop with a closure is
    the loop of [Translate_loop]. *)
Lemma Translate_closure_loop_pure (fuel : nat) (g : option addr)
    (translate : ErrorTranslate) :
  forall n i σ,
    Translate_closure_loop n fuel g (pure_closure translate) i σ
      = Translate_loop n fuel g translate i σ.
Proof.
  induction n as [|n IH]; intros i σ; [reflexivity|].
  rewrite Translate_closure_loop_eq, Translate_loop_eq.
  destruct (ErrorGroup_Len σ g) as [len| |]; cbn [bind]; try reflexivity.
  destruct (i <? len); [|reflexivity].
  destruct (get_group σ g) as [G| |] eqn:HG; cbn [bind]; try reflexivity.
  destruct (slice_index σ (Errors G) i) as [x| |]; cbn [bind]; try reflexivity.
  change (pure_closure translate (EError x) σ) with (Ok (translate (EError x), σ)).
  cbn [bind].
  destruct (errors_As_Error σ (translate (EError x))) as [r| |]; cbn [bind];
    try reflexivity.
  unfold set_element, stored. rewrite HG. cbn [bind fst snd].
  destruct (slice_set (Errors G) i _ σ) as [σ2| |]; cbn [bind]; try reflexivity.
  apply IH.
Qed.

Lemma get_group_Some (σ : store) (a : addr) (G : ErrorGroup) :
  get_group σ (Some a) = Ok G -> groups σ !! a = Some G.
Proof.
  simpl. destruct (groups σ !! a) as [G'|]; [|discriminate].
  now intros [= ->].
Qed.

(** The loop of [Translate] with a closure that leaves the group [G] at
    [a] alone, with the elements before index [length done] already
    translated. *)
Section TranslateClosureLoop.

Variables (fuel : nat) (fn : ErrorTranslateClosure) (a : addr) (G : ErrorGroup).
Hypothesis Hleaves : leaves_group (Some a) fn.

Lemma translation_loop (rest : list Error) :
  forall n done σ trs σ',
    groups σ !! a = Some G ->
    slice_elems σ (Errors G) = Ok (done ++ rest) ->
    length rest <= n ->
    translation fn (Some a) (length done) σ rest trs σ' ->
    Translate_closure_loop n fuel (Some a) fn (length done) σ = Ok σ' /\
    groups σ' !! a = Some G /\
    slice_elems σ' (Errors G) = Ok (done ++ map stored trs).
Proof.
  induction rest as [|x rest IH]; intros n done σ trs σ' Ha Hxs Hn Htr;
    pose proof (slice_elems_length _ _ _ Hxs) as Hlen;
    rewrite length_app in Hlen; simpl in Hlen, Hn;
    rewrite Translate_closure_loop_eq;
    unfold ErrorGroup_Len, get_group; rewrite Ha; cbn [must bind];
    inversion Htr as [|? ? ? ? t σ1 r σ2 trs' ? Hfn Has Hset Hrest]; subst.
  - destruct (Nat.ltb_spec (length done) (s_len (Errors G))); [lia|].
    split; [reflexivity|]. split; [exact Ha|]. simpl. now rewrite app_nil_r in *.
  - destruct (Nat.ltb_spec (length done) (s_len (Errors G))); [|lia].
    destruct n as [|n]; [lia|].
    rewrite (slice_index_elems _ _ _ _ Hxs), list_lookup_middle by reflexivity.
    cbn [must bind]. rewrite Hfn. cbn [bind]. rewrite Has. cbn [bind].
    rewrite Hset. cbn [bind].
    destruct (Hleaves (EError x) σ t σ1 G (done ++ x :: rest)) as [HG1 Hxs1];
      [simpl; now rewrite Ha|exact Hxs|exact Hfn|].
    unfold set_element in Hset. rewrite HG1 in Hset. cbn [bind] in Hset.
    destruct (slice_set_spec σ1 (Errors G) (length done) (stored (t, r)) _ Hxs1)
      as (σ2' & Hset' & Hxs2 & Hgr & _); [rewrite length_app; simpl; lia|].
    rewrite Hset in Hset'. injection Hset' as <-.
    rewrite insert_middle in Hxs2.
    assert (Ha2 : groups σ2 !! a = Some G).
    { rewrite Hgr. now apply get_group_Some. }
    replace (S (length done)) with (length (done ++ [stored (t, r)])) in *
      by (rewrite length_app; simpl; lia).
    destruct (IH n _ σ2 trs' σ' Ha2 Hxs2 ltac:(lia) Hrest) as (Hloop & Ha' & Hxs').
    split; [exact Hloop|]. split; [exact Ha'|].
    now rewrite <- app_assoc in Hxs'.
Qed.

Lemma loop_translation (rest : list Error) :
  forall n done σ σ',
    groups σ !! a = Some G ->
    slice_elems σ (Errors G) = Ok (done ++ rest) ->
    Translate_closure_loop n fuel (Some a) fn (length done) σ = Ok σ' ->
    exists trs, translation fn (Some a) (length done) σ rest trs σ'.
Proof.
  induction rest as [|x rest IH]; intros n done σ σ' Ha Hxs H;
    pose proof (slice_elems_length _ _ _ Hxs) as Hlen;
    rewrite length_app in Hlen; simpl in Hlen;
    rewrite Translate_closure_loop_eq in H;
    unfold ErrorGroup_Len, get_group in H; rewrite Ha in H; cbn [must bind] in H.
  - destruct (Nat.ltb_spec (length done) (s_len (Errors G))); [lia|].
    injection H as <-. exists []. constructor.
  - destruct (Nat.ltb_spec (length done) (s_len (Errors G))); [|lia].
    destruct n as [|n]; [discriminate|].
    rewrite (slice_index_elems _ _ _ _ Hxs), list_lookup_middle in H by reflexivity.
    cbn [must bind] in H. inv_bind_as H p Hfn. destruct p as [t σ1].
    inv_bind_as H r Has. inv_bind_as H σ2 Hset.
    destruct (Hleaves (EError x) σ t σ1 G (done ++ x :: rest)) as [HG1 Hxs1];
      [simpl; now rewrite Ha|exact Hxs|exact Hfn|].
    pose proof Hset as Hset0.
    unfold set_element in Hset. rewrite HG1 in Hset. cbn [bind] in Hset.
    destruct (slice_set_spec σ1 (Errors G) (length done) (stored (t, r)) _ Hxs1)
      as (σ2' & Hset' & Hxs2 & Hgr & _); [rewrite length_app; simpl; lia|].
    rewrite Hset in Hset'. injection Hset' as <-.
    rewrite insert_middle in Hxs2.
    assert (Ha2 : groups σ2 !! a = Some G).
    { rewrite Hgr. now apply get_group_Some. }
    replace (S (length done)) with (length (done ++ [stored (t, r)])) in H
      by (rewrite length_app; simpl; lia).
    destruct (IH n _ σ2 σ' Ha2 Hxs2 H) as [trs Htr].
    exists ((t, r) :: trs). econstructor; [exact Hfn|exact Has|exact Hset0|].
    replace (S (length done)) with (length (done ++ [stored (t, r)]))
      by (rewrite length_app; simpl; lia).
    exact Htr.
Qed.

End TranslateClosureLoop.

(** [Translate] with a translation that writes nothing is [Translate]
    with that translation as a closure, over as many turns as the group
    has elements. *)
Lemma Translate_closure_pure (fuel : nat) (g : option addr) (translate : ErrorTranslate)
    (σ : store) :
  ErrorGroup_Translate fuel g translate σ =
  let* len := ErrorGroup_Len σ g in
  ErrorGroup_Translate_closure len fuel g (pure_closure translate) σ.
Proof.
  unfold ErrorGroup_Translate, ErrorGroup_Translate_closure.
  destruct (ErrorGroup_Len σ g) as [len| |]; cbn [bind]; try reflexivity.
  symmetry. apply Translate_closure_loop_pure.
Qed.

Lemma pure_closure_leaves (g : option addr) (translate : ErrorTranslate) :
  leaves_group g (pure_closure translate).
Proof. intros err σ t σ1 G xs HG Hxs [= _ <-]. now split. Qed.

Lemma translation_length (fn : ErrorTranslateClosure) (g : option addr) (i : nat)
    (σ σ' : store) (xs : list Error) (trs : list (option error * option Error)) :
  translation fn g i σ xs trs σ' -> length trs = length xs.
Proof. induction 1; simpl; congruence. Qed.

Lemma to_new_group_leaves (g : option addr) : leaves_group g to_new_group.
Proof.
  intros err σ t σ1 G xs HG Hxs Hfn. unfold to_new_group, NewErrorGroup in Hfn.
  simpl in Hfn. injection Hfn as <- <-. simpl. split.
  - destruct g as [a|]; [|discriminate]. simpl in HG |- *.
    destruct (groups σ !! a) as [G'|] eqn:Ha; [|discriminate].
    now rewrite (lookup_app_l_Some _ _ _ _ Ha).
  - rewrite <- Hxs. apply slice_elems_frame. intros b Hb. simpl.
    apply slice_elems_inv in Hxs as [(Hnil & _)|(b' & arr & Hb' & Harr & _)];
      [congruence|].
    assert (b' = b) as -> by congruence.
    now rewrite (lookup_app_l_Some _ _ _ _ Harr).
Qed.

(** C9 as stated does not hold, in either half.  A translation that
    appends to the group it translates leaves it longer: the loop reads
    [g.Len()] in every turn.  And a translation that returns a value which
    is not itself an [Error] but wraps one leaves each element as the
    [Error] that [errors.As] extracts from that value, not as an [Error]
    under [ErrUndefined]. *)
Lemma Translate_may_grow_and_narrows :
  ~ (forall n fuel σ g fn xs σ' ys,
       group_elems σ g = Ok xs ->
       ErrorGroup_Translate_closure n fuel g fn σ = Ok σ' ->
       group_elems σ' g = Ok ys ->
       length ys = length xs) /\
  ~ (forall n fuel σ g fn xs σ' ys,
       group_elems σ g = Ok xs ->
       (forall x σ0 w σ1, fn x σ0 = Ok (Some w, σ1) -> is_Error_value w = false) ->
       ErrorGroup_Translate_closure n fuel g fn σ = Ok σ' ->
       group_elems σ' g = Ok ys ->
       Forall (fun y => Error_Equal y ErrUndefined = true) ys).
Proof.
  split; intros H.
  - specialize (H 2 0 flat_store (Some 0) append_once [sample "c" None]).
    destruct (ErrorGroup_Translate_closure 2 0 (Some 0) append_once flat_store)
      as [σ'| |] eqn:Htr; vm_compute in Htr; [|discriminate..].
    injection Htr as <-.
    specialize (H _ [sample "c" None; sample "z" None] eq_refl eq_refl eq_refl).
    discriminate.
  - specialize (H 1 0 flat_store (Some 0) (pure_closure add_context)
                  [sample "c" None] flat_store [sample "c" None] eq_refl).
    assert (Hall : Forall (fun y => Error_Equal y ErrUndefined = true) [sample "c" None]).
    { apply H; [|reflexivity..].
      intros x σ0 w σ1 Hfn. injection Hfn as <- _. reflexivity. }
    inversion Hall as [|y ys Hy _]. discriminate.
Qed.

(** C9 (amended): for a translation that does not write to the group,
    [Translate] (given a turn of the loop for each element) returns
    exactly when the turn-by-turn [translation] of the elements the group
    held can be made, with the store it ends in; the group then holds, at
    the index of each element, what was [stored] for the result of
    translating that element, so as many elements as before and in the
    same order; and when [errors.As] extracted no [Error] from any of the
    results, every element is the result for it under [ErrUndefined]. *)
Theorem Translate_keeps_length_and_order
    (n fuel : nat) (σ : store) (g : option addr) (fn : ErrorTranslateClosure)
    (xs : list Error) :
  group_elems σ g = Ok xs ->
  leaves_group g fn ->
  length xs <= n ->
  (forall σ',
     ErrorGroup_Translate_closure n fuel g fn σ = Ok σ' <->
     exists trs, translation fn g 0 σ xs trs σ') /\
  (forall trs σ',
     translation fn g 0 σ xs trs σ' ->
     length trs = length xs /\
     group_elems σ' g = Ok (map stored trs) /\
     (Forall (fun tr => snd tr = None) trs ->
      group_elems σ' g = Ok (map (fun tr => set_Wrapped ErrUndefined (fst tr)) trs))).
Proof.
  intros (a & G & -> & Ha & HG & Hxs)%group_elems_inv Hleaves Hn.
  assert (Hrun : forall trs σ',
            translation fn (Some a) 0 σ xs trs σ' ->
            ErrorGroup_Translate_closure n fuel (Some a) fn σ = Ok σ' /\
            group_elems σ' (Some a) = Ok (map stored trs)).
  { intros trs σ' Htr.
    destruct (translation_loop fuel fn a G Hleaves xs n [] σ trs σ' Ha Hxs Hn Htr)
      as (Hloop & Ha' & Hys).
    split; [exact Hloop|]. unfold group_elems, get_group. rewrite Ha'. exact Hys. }
  split.
  - intros σ'. split.
    + intros H. exact (loop_translation fuel fn a G Hleaves xs n [] σ σ' Ha Hxs H).
    + intros [trs Htr]. apply (Hrun trs σ' Htr).
  - intros trs σ' Htr. destruct (Hrun trs σ' Htr) as [_ Hys].
    split; [exact (translation_length _ _ _ _ _ _ _ Htr)|]. split; [exact Hys|].
    intros Hnone. rewrite Hys. f_equal. clear -Hnone.
    induction Hnone as [|[t r] trs Hr _ IH]; [reflexivity|].
    simpl in Hr. subst r. simpl. now rewrite IH.
Qed.

Lemma Translate_keeps_length_and_order_witness :
  exists σ',
    ErrorGroup_Translate_closure 2 0 (Some 1) to_new_group flat_store = Ok σ' /\
    group_elems σ' (Some 1)
      = Ok [set_Wrapped ErrUndefined (Some (EGroup (Some 2)));
            set_Wrapped ErrUndefined (Some (EGroup (Some 3)))].
Proof.
  destruct (Translate_keeps_length_and_order 2 0 flat_store (Some 1) to_new_group
              [sample "a" (Some boom); sample "b" None] eq_refl
              (to_new_group_leaves (Some 1)) (le_n 2)) as [Hiff Hrun].
  assert (exists σ',
            translation to_new_group (Some 1) 0 flat_store
              [sample "a" (Some boom); sample "b" None]
              [(Some (EGroup (Some 2)), None); (Some (EGroup (Some 3)), None)] σ')
    as [σ' Htr].
  { eexists.
    eapply translation_turn; [reflexivity..|].
    eapply translation_turn; [reflexivity..|].
    apply translation_done. }
  exists σ'. split.
  - apply Hiff. eexists. exact Htr.
  - apply (Hrun _ _ Htr). repeat constructor.
Defined.

(** ** Unwrap on a group *)

(** With two or more elements, [Unwrap] allocates one array holding the
    elements and returns the chain over it. *)
Lemma ErrorGroup_Unwrap_many (σ : store) (a : addr) (G : ErrorGroup) (xs : list Error) :
  groups σ !! a = Some G ->
  slice_elems σ (Errors G) = Ok xs ->
  2 <= length xs ->
  exists σ1,
    ErrorGroup_Unwrap (Some a) σ
      = Ok (Some (EChain (mkSlice (Some (length (arrays σ))) 0 (length xs))), σ1) /\
    arrays σ1 = arrays σ ++ [xs] /\
    groups σ1 = groups σ.
Proof.
  intros Ha Hxs H2. pose proof (slice_elems_length _ _ _ Hxs) as Hlen.
  unfold ErrorGroup_Unwrap, get_group. rewrite Ha. cbn [must bind].
  destruct (Nat.eqb_spec (s_len (Errors G)) 0) as [?|_]; [lia|].
  destruct (Nat.eqb_spec (s_len (Errors G)) 1) as [?|_]; [lia|].
  unfold make_slice, slice_copy. cbn [s_arr s_off s_len].
  set (n := s_len (Errors G)) in *.
  set (σ1 := mkStore (arrays σ ++ [replicate n Error_zero]) (groups σ)).
  assert (Hsrc : slice_elems σ1 (Errors G) = Ok xs).
  { rewrite <- Hxs. apply slice_elems_frame. intros b Hb. simpl.
    destruct (slice_elems_inv _ _ _ Hxs) as [(Hnil & _)|(b' & arr & Hb' & Harr & _)];
      [congruence|].
    apply lookup_app_l. rewrite Hb in Hb'. injection Hb' as <-.
    now apply lookup_lt_Some in Harr. }
  rewrite Hsrc. cbn [bind].
  unfold σ1 at 1. rewrite slice_elems_fresh by (rewrite length_replicate; lia).
  cbn [bind]. unfold σ1 at 1. cbn [arrays].
  rewrite list_lookup_middle by reflexivity. cbn [must bind].
  eexists. split; [rewrite Hlen; reflexivity|].
  unfold set_array, σ1. cbn [arrays groups]. split; [|reflexivity].
  rewrite Nat.min_id.
  replace (length (arrays σ)) with (length (arrays σ) + 0) at 1 by lia.
  rewrite insert_app_r. cbn [take]. simpl. do 2 f_equal.
  rewrite drop_ge by (rewrite length_replicate; lia).
  rewrite app_nil_r. apply take_ge. lia.
Qed.

(** Writes to the group at [a] leave alone an array [b] that the group's
    slice does not sit in. *)
Section Apart.

Variables (a b : addr) (arr : list Error).

Lemma push_apart (σ σ' : store) (e : Error) :
  apart a b arr σ -> push (Some a) e σ = Ok σ' -> apart a b arr σ'.
Proof.
  intros [Hb Hne] Hpush.
  assert (Hxs : exists xs, group_elems σ (Some a) = Ok xs).
  { unfold push in Hpush. inv_bind_as Hpush G HG. inv_bind_as Hpush p Happ.
    unfold slice_append in Happ. inv_bind_as Happ xs Hxs.
    exists xs. unfold group_elems. now rewrite HG. }
  destruct Hxs as [xs Hxs].
  destruct (push_spec σ (Some a) e xs Hxs) as (σ'' & Hpush' & _ & _ & _ & _ & Hfr).
  rewrite Hpush in Hpush'. injection Hpush' as <-.
  destruct (Hfr a b eq_refl) as [Hsame Hne']; [now apply lookup_lt_Some in Hb|assumption|].
  split; [exact (eq_trans Hsame Hb)|assumption].
Qed.

Lemma slice_set_apart (G : ErrorGroup) (σ σ' : store) (i : nat) (e : Error) :
  apart a b arr σ ->
  groups σ !! a = Some G ->
  slice_set (Errors G) i e σ = Ok σ' ->
  apart a b arr σ' /\ groups σ' = groups σ.
Proof.
  intros [Hb Hne] Ha Hset.
  assert (Hframe : groups σ' = groups σ /\ arrays σ' !! b = arrays σ !! b).
  { unfold slice_set in Hset. inv_bind_as Hset xs Hxs.
    destruct (i <? s_len (Errors G)); [|discriminate].
    destruct (s_arr (Errors G)) as [c|] eqn:Hc; [|discriminate].
    inv_bind_as Hset arr' Harr'. injection Hset as <-.
    unfold set_array. simpl. split; [reflexivity|].
    apply list_lookup_insert_ne. intros ->.
    apply Hne. unfold group_array. now rewrite Ha. }
  destruct Hframe as [Hgr Harr]. split; [|exact Hgr].
  split; [now rewrite Harr|]. unfold group_array in *. now rewrite Hgr.
Qed.

Lemma Translate_loop_apart (fuel : nat) (translate : ErrorTranslate) (n : nat) :
  forall i σ σ',
    apart a b arr σ ->
    Translate_loop n fuel (Some a) translate i σ = Ok σ' ->
    apart a b arr σ'.
Proof.
  induction n as [|n IH]; intros i σ σ' Hapart H;
    rewrite Translate_loop_eq in H; inv_bind_as H len Hlen;
    destruct (i <? len); try discriminate; try (now injection H as <-).
  inv_bind_as H G HG. inv_bind_as H x Hx. inv_bind_as H r Hr.
  inv_bind_as H σ1 Hset.
  simpl in HG. apply must_Ok in HG.
  destruct (slice_set_apart G σ σ1 _ _ Hapart HG Hset) as [Hapart1 _].
  now apply (IH (S i) σ1 σ').
Qed.

Lemma mutate_apart (m : mutation) (σ σ' : store) :
  apart a b arr σ -> mutate (Some a) m σ = Ok σ' -> apart a b arr σ'.
Proof.
  intros Hapart H. destruct m as [fuel errs|i j|fuel translate]; simpl in H.
  - revert H. apply Append_preserves; [|exact Hapart].
    intros σ0 e σ1. apply push_apart.
  - unfold ErrorGroup_Swap in H. inv_bind_as H G HG.
    inv_bind_as H xj Hxj. inv_bind_as H xi Hxi. inv_bind_as H σ1 Hset.
    simpl in HG. apply must_Ok in HG.
    destruct (slice_set_apart G σ σ1 _ _ Hapart HG Hset) as [Hapart1 Hgr].
    rewrite <- Hgr in HG.
    now destruct (slice_set_apart G σ1 σ' _ _ Hapart1 HG H).
  - unfold ErrorGroup_Translate in H. inv_bind_as H len Hlen.
    now apply (Translate_loop_apart fuel translate len 0 σ σ').
Qed.

Lemma mutate_all_apart (ms : list mutation) :
  forall σ σ',
    apart a b arr σ -> mutate_all (Some a) ms σ = Ok σ' -> apart a b arr σ'.
Proof.
  induction ms as [|m ms IH]; intros σ σ' Hapart H; simpl in H.
  - now injection H as <-.
  - inv_bind_as H σ1 Hm. apply (IH σ1 σ'); [|exact H].
    now apply (mutate_apart m σ σ1).
Qed.

End Apart.

(** C7: [Unwrap] on a nil group reference or on an empty group is nil;
    on a group with one element it is that element, as an [Error]; on a
    group with more it is a chain over a newly allocated copy of the
    elements, which the group's own elements are not moved by, and which
    keeps reading the same elements after any sequence of [Append],
    [Swap] and [Translate] calls on the group. *)
Theorem ErrorGroup_Unwrap_cases (σ : store) (a : addr) (xs : list Error) :
  ErrorGroup_Unwrap None σ = Ok (None, σ) /\
  (group_elems σ (Some a) = Ok xs ->
   match xs with
   | [] => ErrorGroup_Unwrap (Some a) σ = Ok (None, σ)
   | [x] => ErrorGroup_Unwrap (Some a) σ = Ok (Some (EError x), σ)
   | _ =>
       exists c σ1,
         ErrorGroup_Unwrap (Some a) σ = Ok (Some (EChain c), σ1) /\
         slice_elems σ1 c = Ok xs /\
         group_elems σ1 (Some a) = Ok xs /\
         forall ms σ2,
           mutate_all (Some a) ms σ1 = Ok σ2 -> slice_elems σ2 c = Ok xs
   end).
Proof.
  split; [reflexivity|].
  intros (a' & G & [= <-] & Ha & HG & Hxs)%group_elems_inv.
  pose proof (slice_elems_length _ _ _ Hxs) as Hlen.
  destruct xs as [|x [|y xs]].
  - unfold ErrorGroup_Unwrap. rewrite HG. cbn [bind]. now rewrite <- Hlen.
  - unfold ErrorGroup_Unwrap. rewrite HG. cbn [bind]. rewrite <- Hlen.
    cbn [length Nat.eqb]. now rewrite (slice_index_elems _ _ _ _ Hxs).
  - destruct (ErrorGroup_Unwrap_many σ a G (x :: y :: xs) Ha Hxs)
      as (σ1 & Hun & Harr & Hgr); [simpl; lia|].
    set (c := mkSlice (Some (length (arrays σ))) 0 (length (x :: y :: xs))) in *.
    assert (Hb : arrays σ1 !! length (arrays σ) = Some (x :: y :: xs)).
    { rewrite Harr. now apply list_lookup_middle. }
    assert (Hread : forall σ2, arrays σ2 !! length (arrays σ) = Some (x :: y :: xs) ->
                               slice_elems σ2 c = Ok (x :: y :: xs)).
    { intros σ2 H2. unfold slice_elems, c. cbn [s_arr s_off s_len].
      rewrite H2. cbn [must bind]. rewrite Nat.leb_refl, drop_0.
      f_equal. now apply take_ge. }
    assert (Hsrc : slice_elems σ1 (Errors G) = Ok (x :: y :: xs)).
    { rewrite <- Hxs. apply slice_elems_frame. intros b HbG. rewrite Harr.
      destruct (slice_elems_inv _ _ _ Hxs) as [(Hnil & _)|(b' & arr & Hb' & Harr' & _)];
        [congruence|].
      apply lookup_app_l. rewrite HbG in Hb'. injection Hb' as <-.
      now apply lookup_lt_Some in Harr'. }
    exists c, σ1. split; [exact Hun|]. split; [now apply Hread|].
    split.
    + unfold group_elems, get_group. rewrite Hgr, Ha. exact Hsrc.
    + intros ms σ2 Hms. apply Hread.
      apply (mutate_all_apart a (length (arrays σ)) (x :: y :: xs) ms σ1 σ2);
        [|exact Hms].
      split; [exact Hb|]. unfold group_array. rewrite Hgr, Ha.
      destruct (slice_elems_inv _ _ _ Hxs) as [(_ & ? & _)|(b' & arr & Hb' & Harr' & _)];
        [simpl in Hlen; lia|].
      rewrite Hb'. intros [= ->]. apply lookup_lt_Some in Harr'. lia.
Qed.

Lemma ErrorGroup_Unwrap_cases_witness :
  exists c σ1,
    ErrorGroup_Unwrap (Some 1) flat_store = Ok (Some (EChain c), σ1) /\
    slice_elems σ1 c = Ok [sample "a" (Some boom); sample "b" None] /\
    group_elems σ1 (Some 1) = Ok [sample "a" (Some boom); sample "b" None] /\
    forall ms σ2,
      mutate_all (Some 1) ms σ1 = Ok σ2 ->
      slice_elems σ2 c = Ok [sample "a" (Some boom); sample "b" None].
Proof.
  apply (proj2 (ErrorGroup_Unwrap_cases flat_store 1
                  [sample "a" (Some boom); sample "b" None])).
  reflexivity.
Defined.

(** * Further properties *)

(** ** Equal and Key *)

Lemma list_eqb_eq {A : Type} (eqb : A -> A -> bool) (l1 l2 : list A) :
  (forall x y, eqb x y = true <-> x = y) ->
  list_eqb eqb l1 l2 = true <-> l1 = l2.
Proof.
  intros Heqb. revert l2. induction l1 as [|x l1 IH]; intros [|y l2]; simpl;
    try (split; [discriminate|discriminate]); try tauto.
  rewrite andb_true_iff, Heqb, IH. split.
  - now intros [-> ->].
  - intros [= -> ->]. auto.
Qed.

Lemma Link_eqb_eq (a b : Link) : Link_eqb a b = true <-> a = b.
Proof.
  unfold Link_eqb. rewrite andb_true_iff, !String.eqb_eq.
  destruct a, b; simpl. split.
  - now intros [-> ->].
  - intros [= -> ->]. auto.
Qed.

(** [Equal] holds exactly when the seven fields it reads agree; a nil
    and an empty [Links] slice do not agree. *)
Lemma Error_Equal_iff (e e2 : Error) :
  Error_Equal e e2 = true <->
  Code e = Code e2 /\ Message e = Message e2 /\ Namespace e = Namespace e2 /\
  Flags e = Flags e2 /\ Debug (Extras e) = Debug (Extras e2) /\
  Help (Extras e) = Help (Extras e2) /\ Retry (Extras e) = Retry (Extras e2).
Proof.
  unfold Error_Equal, reflect_DeepEqual, DebugExtras_DeepEqual,
    HelpExtras_DeepEqual, RetryExtras_DeepEqual.
  rewrite !andb_true_iff, !String.eqb_eq, N.eqb_eq, Z.eqb_eq.
  destruct (Debug (Extras e)) as [st], (Debug (Extras e2)) as [st2].
  destruct (Help (Extras e)) as [l], (Help (Extras e2)) as [l2].
  destruct (Retry (Extras e)) as [d], (Retry (Extras e2)) as [d2]. simpl.
  assert (Hl : valslice_DeepEqual Link_eqb l l2 = true <-> l = l2).
  { destruct l as [l|], l2 as [l2|]; simpl; try (split; discriminate); [|tauto].
    rewrite (list_eqb_eq _ _ _ Link_eqb_eq). split; [now intros ->|now intros [= ->]]. }
  rewrite Hl. split.
  - intros ((((((-> & ->) & ->) & ->) & ->) & ->) & ->). auto 10.
  - intros (-> & -> & -> & -> & [= ->] & [= ->] & [= ->]). auto 10.
Qed.

(** X1: [Equal] is an equivalence relation on [Error] values. *)
Theorem Error_Equal_equivalence :
  (forall e, Error_Equal e e = true) /\
  (forall e1 e2, Error_Equal e1 e2 = true -> Error_Equal e2 e1 = true) /\
  (forall e1 e2 e3,
     Error_Equal e1 e2 = true -> Error_Equal e2 e3 = true ->
     Error_Equal e1 e3 = true).
Proof.
  split; [exact Error_Equal_refl|]. split.
  - intros e1 e2. rewrite !Error_Equal_iff. intuition congruence.
  - intros e1 e2 e3. rewrite !Error_Equal_iff. intuition congruence.
Qed.

Lemma Error_Equal_equivalence_witness :
  Error_Equal (sample "a" (Some boom)) (sample "a" None) = true /\
  Error_Equal (sample "a" None) (sample "a" (Some boom)) = true.
Proof.
  split; [reflexivity|].
  apply (proj1 (proj2 Error_Equal_equivalence)). reflexivity.
Defined.

Lemma append_slash_inj (ns1 ns2 c1 c2 : string) :
  no_slash ns1 = true -> no_slash ns2 = true ->
  (ns1 ++ "/" ++ c1)%string = (ns2 ++ "/" ++ c2)%string ->
  ns1 = ns2 /\ c1 = c2.
Proof.
  revert ns2. induction ns1 as [|a ns1 IH]; intros [|b ns2] H1 H2 Heq;
    simpl in *.
  - now injection Heq.
  - injection Heq as <- _. now rewrite Ascii.eqb_refl in H2.
  - injection Heq as -> _. now rewrite Ascii.eqb_refl in H1.
  - apply andb_true_iff in H1 as [_ H1]. apply andb_true_iff in H2 as [_ H2].
    injection Heq as -> Heq. destruct (IH ns2 H1 H2 Heq) as [-> ->]. auto.
Qed.

(** X2: errors that are [Equal] have the same [Key]; and when the
    namespaces hold no ["/"], two errors with the same [Key] have the same
    [Namespace] and the same [Code]. *)
Theorem Error_Key_identity (e1 e2 : Error) :
  (Error_Equal e1 e2 = true -> Error_Key e1 = Error_Key e2) /\
  (no_slash (Namespace e1) = true -> no_slash (Namespace e2) = true ->
   Error_Key e1 = Error_Key e2 ->
   Namespace e1 = Namespace e2 /\ Code e1 = Code e2).
Proof.
  split.
  - rewrite Error_Equal_iff. intros (Hc & _ & Hn & _). unfold Error_Key.
    now rewrite Hc, Hn.
  - unfold Error_Key, ErrorKey. apply append_slash_inj.
Qed.

Lemma Error_Key_identity_witness :
  Namespace (sample "a" None) = Namespace (sample "a" (Some boom)) /\
  Code (sample "a" None) = Code (sample "a" (Some boom)).
Proof.
  apply (proj2 (Error_Key_identity (sample "a" None) (sample "a" (Some boom))));
    reflexivity.
Defined.

(** ** Extras *)

Lemma valslice_append_assoc {A : Type} (s : valslice A) (xs ys : list A) :
  valslice_append (valslice_append s xs) ys = valslice_append s (xs ++ ys).
Proof.
  destruct xs as [|x xs]; simpl.
  - reflexivity.
  - destruct ys as [|y ys]; simpl.
    + now rewrite app_nil_r.
    + now rewrite <- app_assoc.
Qed.

(** X3: tagging twice is tagging once with both lists of tags, in that
    order; a call with at least one tag leaves extras that [IsZero] does
    not hold of; and a call without tags returns an [Error] with the same
    fields. *)
Theorem WithTag_composes (e : Error) (tags1 tags2 : list string) :
  Error_WithTag (Error_WithTag e tags1) tags2 = Error_WithTag e (tags1 ++ tags2) /\
  (tags1 <> [] -> ErrorExtras_IsZero (Extras (Error_WithTag e tags1)) = false) /\
  Error_WithTag e [] = e.
Proof.
  split; [|split].
  - unfold Error_WithTag, ErrorExtras_WithTag; simpl.
    now rewrite valslice_append_assoc.
  - intros Hne. destruct tags1 as [|t tags1]; [congruence|].
    unfold ErrorExtras_IsZero; simpl. rewrite length_app. simpl.
    replace (length (valslice_elems (Tags (Extras e))) + S (length tags1) =? 0)
      with false by (symmetry; apply Nat.eqb_neq; lia).
    apply andb_false_r.
  - destruct e as [c [d h r t] f m n w]. reflexivity.
Qed.

Lemma WithTag_composes_witness :
  ErrorExtras_IsZero (Extras (Error_WithTag (sample "a" None) ["t"])) = false.
Proof.
  apply (proj1 (proj2 (WithTag_composes (sample "a" None) ["t"] []))).
  discriminate.
Defined.

(** X4: [WithDebugInfo], [WithHelp] and [WithRetry] return an [Error]
    that is [Equal] to the receiver exactly when the value passed is the
    one the receiver already holds; they keep the cause and the tags. *)
Theorem With_extras_and_Equal (e : Error) (d : DebugExtras) (h : HelpExtras)
    (r : RetryExtras) :
  (Error_Equal (Error_WithDebugInfo e d) e = true <-> d = Debug (Extras e)) /\
  (Error_Equal (Error_WithHelp e h) e = true <-> h = Help (Extras e)) /\
  (Error_Equal (Error_WithRetry e r) e = true <-> r = Retry (Extras e)) /\
  Wrapped (Error_WithRetry (Error_WithHelp (Error_WithDebugInfo e d) h) r) = Wrapped e /\
  Tags (Extras (Error_WithRetry (Error_WithHelp (Error_WithDebugInfo e d) h) r))
    = Tags (Extras e).
Proof.
  rewrite !Error_Equal_iff. simpl. intuition.
Qed.

Lemma With_extras_and_Equal_witness :
  Error_Equal (Error_WithRetry (sample "a" None) {| Delay := 0 |}) (sample "a" None) = true.
Proof.
  apply (proj1 (proj2 (proj2 (With_extras_and_Equal (sample "a" None)
           {| StackTrace := "" |} {| Links := None |} {| Delay := 0 |})))).
  reflexivity.
Defined.

(** ** Groups: emptiness tests *)

Lemma slice_elems_nonempty_arr (σ : store) (s : slice) (x : Error) (xs : list Error) :
  slice_elems σ s = Ok (x :: xs) -> is_nil_slice s = false /\ s_len s = S (length xs).
Proof.
  intros H. pose proof (slice_elems_length _ _ _ H) as Hlen. simpl in Hlen.
  split; [|now symmetry].
  destruct (slice_elems_inv _ _ _ H) as [(_ & _ & ?)|(a & arr & Harr & _)];
    [discriminate|].
  unfold is_nil_slice. now rewrite Harr.
Qed.

(** X5: on a group reference that is not nil, [Empty], [ErrorOrNil] and
    [GroupOrNil] agree: with no element they answer true, nil and nil;
    with elements they answer false, the group itself as an error, and the
    same pointer. *)
Theorem group_emptiness_tests_agree (σ : store) (g : option addr) (xs : list Error) :
  group_elems σ g = Ok xs ->
  match xs with
  | [] =>
      ErrorGroup_Empty σ g = Ok true /\
      ErrorGroup_ErrorOrNil σ g = Ok None /\
      ErrorGroup_GroupOrNil σ g = Ok None
  | _ :: _ =>
      ErrorGroup_Empty σ g = Ok false /\
      ErrorGroup_ErrorOrNil σ g = Ok (Some (EGroup g)) /\
      ErrorGroup_GroupOrNil σ g = Ok g
  end.
Proof.
  intros (a & G & -> & Ha & HG & Hxs)%group_elems_inv.
  unfold ErrorGroup_Empty, ErrorGroup_ErrorOrNil, ErrorGroup_GroupOrNil.
  rewrite HG. cbn [bind]. destruct xs as [|x xs].
  - pose proof (slice_elems_length _ _ _ Hxs) as Hlen. simpl in Hlen.
    rewrite <- Hlen. simpl. now rewrite orb_true_r.
  - destruct (slice_elems_nonempty_arr _ _ _ _ Hxs) as [-> ->]. auto.
Qed.

Lemma group_emptiness_tests_agree_witness :
  ErrorGroup_Empty flat_store (Some 1) = Ok false /\
  ErrorGroup_ErrorOrNil flat_store (Some 1) = Ok (Some (EGroup (Some 1))) /\
  ErrorGroup_GroupOrNil flat_store (Some 1) = Ok (Some 1).
Proof.
  apply (group_emptiness_tests_agree flat_store (Some 1)
           [sample "a" (Some boom); sample "b" None]).
  reflexivity.
Defined.

(** ** errors.As on a group *)

Lemma slice_elems_whole (σ : store) (b : addr) (xs : list Error) :
  arrays σ !! b = Some xs ->
  slice_elems σ (mkSlice (Some b) 0 (length xs)) = Ok xs.
Proof.
  intros Hb. unfold slice_elems. cbn [s_arr s_off s_len].
  rewrite Hb. cbn [must bind]. rewrite Nat.leb_refl, drop_0.
  f_equal. now apply take_ge.
Qed.

Lemma as_Error_group (σ : store) (g : option addr) (xs : list Error) :
  group_elems σ g = Ok xs -> as_Error σ (EGroup g) = Ok (head xs).
Proof.
  intros (a & G & -> & Ha & HG & Hxs)%group_elems_inv.
  pose proof (slice_elems_length _ _ _ Hxs) as Hlen.
  destruct xs as [|x [|y xs]]; cbn [as_Error].
  - unfold ErrorGroup_Unwrap. rewrite HG. cbn [bind]. now rewrite <- Hlen.
  - unfold ErrorGroup_Unwrap. rewrite HG. cbn [bind]. rewrite <- Hlen.
    cbn [length Nat.eqb]. now rewrite (slice_index_elems _ _ _ _ Hxs).
  - destruct (ErrorGroup_Unwrap_many σ a G (x :: y :: xs) Ha Hxs)
      as (σ1 & -> & Harr & _); [simpl; lia|].
    cbn [bind]. unfold errorChain_As_Error. cbn [s_len length Nat.eqb].
    rewrite (slice_index_elems _ _ (x :: y :: xs)); [reflexivity|].
    apply (slice_elems_whole σ1 (length (arrays σ)) (x :: y :: xs)).
    rewrite Harr. now apply list_lookup_middle.
Qed.

(** X6: [errors.As] with a target of type [Error] extracts from a group
    its first element, and nothing from an empty group or from a nil group
    pointer; so [Is] with a group as target compares with the group's
    first element only. *)
Theorem errors_As_group_is_first_element (σ : store) (g : option addr)
    (xs : list Error) :
  errors_As_Error σ (Some (EGroup None)) = Ok None /\
  (group_elems σ g = Ok xs ->
   errors_As_Error σ (Some (EGroup g)) = Ok (head xs) /\
   forall e,
     Error_Is σ e (Some (EGroup g))
       = Ok (match head xs with
             | Some x => Error_Equal e x
             | None => false
             end)).
Proof.
  split; [reflexivity|]. intros Hxs.
  pose proof (as_Error_group σ g xs Hxs) as Has. split; [exact Has|].
  intros e. unfold Error_Is, errors_As_Error. rewrite Has. cbn [bind].
  now destruct (head xs).
Qed.

Lemma errors_As_group_is_first_element_witness :
  errors_As_Error flat_store (Some (EGroup (Some 1))) = Ok (Some (sample "a" (Some boom))).
Proof.
  apply (proj2 (errors_As_group_is_first_element flat_store (Some 1)
                  [sample "a" (Some boom); sample "b" None])).
  reflexivity.
Defined.

(** ** Append *)

Lemma push_elems (σ σ' : store) (g : option addr) (e : Error) (xs : list Error) :
  group_elems σ g = Ok xs -> push g e σ = Ok σ' ->
  group_elems σ' g = Ok (xs ++ [e]).
Proof.
  intros Hxs Hpush.
  destruct (push_spec σ g e xs Hxs) as (σ'' & Hpush' & Hxs' & _).
  rewrite Hpush in Hpush'. now injection Hpush' as <-.
Qed.

(** X7: whatever its arguments, [Append] only adds at the end: when it
    returns, the elements the group held are a prefix of the elements it
    holds. *)
Theorem Append_keeps_prefix (fuel : nat) (σ σ' : store) (g : option addr)
    (errs : list (option error)) (xs : list Error) :
  group_elems σ g = Ok xs ->
  ErrorGroup_Append fuel g errs σ = Ok σ' ->
  exists ys, group_elems σ' g = Ok (xs ++ ys).
Proof.
  intros Hxs Happ.
  apply (Append_preserves (fun s => exists ys, group_elems s g = Ok (xs ++ ys)) g)
    with (fuel := fuel) (errs := errs) (σ := σ); [| |exact Happ].
  - intros s e s' [ys Hys] Hpush. exists (ys ++ [e]).
    rewrite app_assoc. now apply (push_elems s s').
  - exists []. now rewrite app_nil_r.
Qed.

Lemma Append_keeps_prefix_witness :
  exists σ',
    ErrorGroup_Append 1 (Some 0) [Some boom; None; Some (EGroup (Some 1))] flat_store
      = Ok σ' /\
    exists ys, group_elems σ' (Some 0) = Ok ([sample "c" None] ++ ys).
Proof.
  eexists. split; [vm_compute; reflexivity|].
  apply (Append_keeps_prefix 1 flat_store _ (Some 0)
           [Some boom; None; Some (EGroup (Some 1))] [sample "c" None]);
    vm_compute; reflexivity.
Defined.

Lemma plain_opt_as_ErrorGroup (fuel : nat) (σ : store) (t : option error) :
  plain_opt t = true -> errors_As_ErrorGroup fuel σ t = Ok None.
Proof. destruct t as [w|]; [apply plain_as_ErrorGroup|reflexivity]. Qed.

Lemma Append_plain_opt (fuel : nat) (g : option addr) (errs : list (option error)) :
  Forall (fun t => plain_opt t = true) errs ->
  forall σ xs,
    group_elems σ g = Ok xs ->
    exists σ',
      ErrorGroup_Append fuel g errs σ = Ok σ' /\
      group_elems σ' g = Ok (xs ++ map narrowed (non_nil errs)).
Proof.
  induction 1 as [|[w|] errs Hw _ IH]; intros σ xs Hxs.
  - exists σ. rewrite Append_nil. simpl. now rewrite app_nil_r.
  - destruct (push_spec σ g (narrowed w) xs Hxs) as (σ1 & Hpush & Hxs1 & _).
    destruct (IH σ1 _ Hxs1) as (σ' & Happ & Hxs').
    exists σ'. rewrite <- app_assoc in Hxs'. split; [|exact Hxs'].
    rewrite Append_cons. unfold errors_As_ErrorGroup, errors_As_Error.
    simpl in Hw.
    rewrite plain_as_ErrorGroup by assumption. cbn [bind].
    rewrite plain_as_Error by assumption. cbn [bind].
    fold (narrowed w). now rewrite Hpush.
  - destruct (IH σ xs Hxs) as (σ' & Happ & Hxs').
    exists σ'. now rewrite Append_cons_nil.
Qed.

(** X8: [Append] with arguments that are nil or plain (no group and no
    chain along their unwrap chains) returns, skips the nil ones, and adds
    for each of the others, in order, the first [Error] along its chain,
    or the argument under [ErrUndefined] when there is none.  No [Error]
    is dropped, the zero value [Error{}] included. *)
Theorem Append_plain_arguments (fuel : nat) (σ : store) (g : option addr)
    (errs : list (option error)) (xs : list Error) :
  Forall (fun t => plain_opt t = true) errs ->
  group_elems σ g = Ok xs ->
  (exists σ',
     ErrorGroup_Append fuel g errs σ = Ok σ' /\
     group_elems σ' g = Ok (xs ++ map narrowed (non_nil errs))) /\
  exists σ',
    ErrorGroup_Append fuel g [Some (EError Error_zero)] σ = Ok σ' /\
    group_elems σ' g = Ok (xs ++ [Error_zero]).
Proof.
  intros Hplain Hxs. split.
  - now apply Append_plain_opt.
  - apply (Append_plain_opt fuel g [Some (EError Error_zero)]); [|exact Hxs].
    now repeat constructor.
Qed.

Lemma Append_plain_arguments_witness :
  exists σ',
    ErrorGroup_Append 0 (Some 0) [None; Some boom; Some ctx_inner] flat_store = Ok σ' /\
    group_elems σ' (Some 0)
      = Ok [sample "c" None; set_Wrapped ErrUndefined (Some boom); inner].
Proof.
  apply (proj1 (Append_plain_arguments 0 flat_store (Some 0)
                  [None; Some boom; Some ctx_inner] [sample "c" None]
                  ltac:(repeat constructor) eq_refl)).
Defined.

(** X9: on a nil group reference, [Append] returns without effect when
    every argument is nil, and panics when it reaches a plain argument
    that is not nil. *)
Theorem Append_on_nil_group (fuel : nat) (σ : store) (nils rest : list (option error))
    (w : error) :
  Forall (fun t => t = None) nils ->
  ErrorGroup_Append fuel None nils σ = Ok σ /\
  (plain w = true ->
   ErrorGroup_Append fuel None (nils ++ Some w :: rest) σ = Panic).
Proof.
  induction 1 as [|t nils -> _ IH].
  - split; [apply Append_nil|]. intros Hw. simpl. rewrite Append_cons.
    unfold errors_As_ErrorGroup, errors_As_Error.
    rewrite plain_as_ErrorGroup by assumption. cbn [bind].
    rewrite plain_as_Error by assumption. reflexivity.
  - destruct IH as [IH1 IH2]. split.
    + now rewrite Append_cons_nil.
    + intros Hw. simpl. rewrite Append_cons_nil. now apply IH2.
Qed.

Lemma Append_on_nil_group_witness :
  ErrorGroup_Append 0 None ([None] ++ Some boom :: []) empty_store = Panic.
Proof.
  apply (proj2 (Append_on_nil_group 0 empty_store [None] [] boom
                  ltac:(repeat constructor))).
  reflexivity.
Defined.

(** ** NewErrorGroup and ErrorJoin *)

Lemma non_nil_nil (errs : list (option error)) :
  non_nil errs = [] <-> Forall (fun t => t = None) errs.
Proof.
  induction errs as [|[w|] errs IH]; simpl.
  - split; [constructor|reflexivity].
  - split; [discriminate|]. intros H. inversion H. discriminate.
  - unfold non_nil in IH. rewrite IH. split.
    + now constructor.
    + now inversion 1.
Qed.

Lemma NewErrorGroup_plain (fuel : nat) (σ : store) (errs : list (option error)) :
  Forall (fun t => plain_opt t = true) errs ->
  exists g σ',
    NewErrorGroup fuel errs σ = Ok (g, σ') /\
    g = length (groups σ) /\
    group_elems σ' (Some g) = Ok (map narrowed (non_nil errs)).
Proof.
  intros Hplain. unfold NewErrorGroup.
  pose proof (group_elems_new σ (length errs) FmtDefault) as Hnew.
  destruct (make_slice 0 (length errs) σ) as [s σ1].
  destruct (new_group (mkErrorGroup s FmtDefault) σ1) as [g σ2].
  destruct Hnew as [Hg Hnil].
  destruct (Append_plain_opt fuel (Some g) errs Hplain σ2 [] Hnil) as (σ3 & -> & Hxs).
  cbn [bind]. exists g, σ3. auto.
Qed.

(** X10: [NewErrorGroup] on arguments that are nil or plain returns a new
    group holding, in order, what [Append] stores for the arguments that
    are not nil; [ErrorOrNil] on it is nil exactly when every argument is
    nil. *)
Theorem NewErrorGroup_of_plain_arguments (fuel : nat) (σ : store)
    (errs : list (option error)) :
  Forall (fun t => plain_opt t = true) errs ->
  exists g σ',
    NewErrorGroup fuel errs σ = Ok (g, σ') /\
    g = length (groups σ) /\
    group_elems σ' (Some g) = Ok (map narrowed (non_nil errs)) /\
    (ErrorGroup_ErrorOrNil σ' (Some g) = Ok None <->
     Forall (fun t => t = None) errs).
Proof.
  intros Hplain.
  destruct (NewErrorGroup_plain fuel σ errs Hplain) as (g & σ' & Hnew & Hg & Hxs).
  exists g, σ'. split; [exact Hnew|]. split; [exact Hg|]. split; [exact Hxs|].
  rewrite <- non_nil_nil.
  pose proof (group_emptiness_tests_agree σ' (Some g) _ Hxs) as Htests.
  destruct (non_nil errs) as [|w ws]; cbn [map] in Htests;
    destruct Htests as (_ & Hnil & _); rewrite Hnil.
  - tauto.
  - split; discriminate.
Qed.

Lemma NewErrorGroup_of_plain_arguments_witness :
  exists g σ',
    NewErrorGroup 0 [None; Some boom] empty_store = Ok (g, σ') /\
    g = 0 /\
    group_elems σ' (Some g) = Ok [set_Wrapped ErrUndefined (Some boom)] /\
    (ErrorGroup_ErrorOrNil σ' (Some g) = Ok None <->
     Forall (fun t => t = None) [None; Some boom]).
Proof.
  apply (NewErrorGroup_of_plain_arguments 0 empty_store [None; Some boom]).
  repeat constructor.
Defined.

Lemma SliceFlatten_one_and_variadic {A : Type} (x : A) (xs : list A) :
  valslice_elems (SliceFlatten [Some [x]; variadic xs]) = x :: xs.
Proof. destruct xs; reflexivity. Qed.

(** X11: [ErrorJoin] on a first argument and further arguments that are
    all nil or plain returns a new group holding, in order, what [Append]
    stores for those of them that are not nil, the first argument
    first. *)
Theorem ErrorJoin_makes_new_group (fuel : nat) (σ : store) (err : option error)
    (errs : list (option error)) :
  plain_opt err = true ->
  Forall (fun t => plain_opt t = true) errs ->
  exists g σ',
    ErrorJoin fuel err errs σ = Ok (Some g, σ') /\
    g = length (groups σ) /\
    group_elems σ' (Some g) = Ok (map narrowed (non_nil (err :: errs))).
Proof.
  intros Herr Herrs. unfold ErrorJoin.
  rewrite plain_opt_as_ErrorGroup by assumption. cbn [bind].
  destruct (NewErrorGroup_plain fuel σ [] ltac:(constructor))
    as (g & σ1 & -> & Hg & Hnil).
  cbn [bind]. rewrite SliceFlatten_one_and_variadic.
  destruct (Append_plain_opt fuel (Some g) (err :: errs)) with (σ := σ1) (xs := @nil Error)
    as (σ2 & -> & Hxs); [now constructor|exact Hnil|].
  cbn [bind]. exists g, σ2. auto.
Qed.

Lemma ErrorJoin_makes_new_group_witness :
  exists g σ',
    ErrorJoin 0 None [Some (EError (sample "a" None)); None; Some boom] empty_store
      = Ok (Some g, σ') /\
    g = 0 /\
    group_elems σ' (Some g)
      = Ok [sample "a" None; set_Wrapped ErrUndefined (Some boom)].
Proof.
  apply (ErrorJoin_makes_new_group 0 empty_store None
           [Some (EError (sample "a" None)); None; Some boom]).
  - reflexivity.
  - repeat constructor.
Defined.

(** X12: when [errors.As] finds a group along the first argument's
    unwrap chain, [ErrorJoin] returns that very group, with what [Append]
    stores for the further arguments (nil or plain) added after the
    elements it held; the first argument itself is not added, also when
    it is an [Error] that wraps the group. *)
Theorem ErrorJoin_reuses_group (fuel : nat) (σ : store) (err : error)
    (g : option addr) (errs : list (option error)) (xs : list Error) :
  as_ErrorGroup fuel σ err = Ok (Some g) ->
  group_elems σ g = Ok xs ->
  Forall (fun t => plain_opt t = true) errs ->
  exists σ',
    ErrorJoin fuel (Some err) errs σ = Ok (g, σ') /\
    group_elems σ' g = Ok (xs ++ map narrowed (non_nil errs)).
Proof.
  intros Has Hxs Herrs. unfold ErrorJoin, errors_As_ErrorGroup.
  rewrite Has. cbn [bind].
  destruct (Append_plain_opt fuel g errs Herrs σ xs Hxs) as (σ' & -> & Hxs').
  cbn [bind]. exists σ'. auto.
Qed.

Lemma ErrorJoin_reuses_group_witness :
  exists σ',
    ErrorJoin 0 (Some (EError nested_a)) [Some boom] nested_store = Ok (Some 0, σ') /\
    group_elems σ' (Some 0)
      = Ok [sample "d" None; set_Wrapped ErrUndefined (Some boom)].
Proof.
  apply (ErrorJoin_reuses_group 0 nested_store (EError nested_a) (Some 0)
           [Some boom] [sample "d" None]).
  - reflexivity.
  - reflexivity.
  - repeat constructor.
Defined.

(** ** Translate with plain results *)

Lemma plain_opt_as_Error (σ : store) (t : option error) :
  plain_opt t = true ->
  errors_As_Error σ t = Ok (match t with Some w => first_Error w | None => None end).
Proof. destruct t as [w|]; [apply plain_as_Error|reflexivity]. Qed.

Lemma Translate_plain (fuel : nat) (σ : store) (g : option addr)
    (translate : ErrorTranslate) (xs : list Error) :
  (forall x, plain_opt (translate x) = true) ->
  group_elems σ g = Ok xs ->
  exists σ',
    ErrorGroup_Translate fuel g translate σ = Ok σ' /\
    group_elems σ' g = Ok (map (fun x => narrowed_opt (translate (EError x))) xs).
Proof.
  intros Hplain (a & G & -> & Ha & HG & Hxs)%group_elems_inv.
  pose proof (slice_elems_length _ _ _ Hxs) as Hlen.
  destruct (Translate_loop_total fuel translate a G xs) with
    (n := s_len (Errors G)) (done := @nil Error) (σ := σ) as [σ' Hloop];
    [|lia|exact Ha|exact Hxs|].
  { intros σ0 x. rewrite plain_opt_as_Error by apply Hplain. eauto. }
  destruct (Translate_loop_inv fuel translate a G xs _ [] σ σ' Ha Hxs Hloop)
    as (ys & HR & Ha' & Hys).
  exists σ'. split.
  - unfold ErrorGroup_Translate, ErrorGroup_Len. rewrite HG. exact Hloop.
  - unfold group_elems, get_group. rewrite Ha'. cbn [must bind]. simpl in Hys.
    rewrite Hys. f_equal. clear -HR Hplain.
    induction HR as [|x y xs ys (σi & r & Hr & ->) _ IH]; simpl; [reflexivity|].
    rewrite plain_opt_as_Error in Hr by apply Hplain. injection Hr as <-.
    rewrite IH. f_equal. unfold narrowed_opt, narrowed.
    destruct (translate (EError x)) as [w|]; [|reflexivity].
    now destruct (first_Error w).
Qed.

(** X13: [NewTranslatedErrorGroup] on arguments that are nil or plain,
    with a translation whose results are nil or plain, returns a new
    group holding, for each argument that is not nil and in order, what
    [Translate] stores for the translation of what [Append] stored. *)
Theorem NewTranslatedErrorGroup_composes (fuel : nat) (σ : store)
    (translate : ErrorTranslate) (errs : list (option error)) :
  (forall x, plain_opt (translate x) = true) ->
  Forall (fun t => plain_opt t = true) errs ->
  exists g σ',
    NewTranslatedErrorGroup fuel translate errs σ = Ok (g, σ') /\
    g = length (groups σ) /\
    group_elems σ' (Some g)
      = Ok (map (fun w => narrowed_opt (translate (EError (narrowed w))))
                (non_nil errs)).
Proof.
  intros Htr Herrs. unfold NewTranslatedErrorGroup.
  destruct (NewErrorGroup_plain fuel σ errs Herrs) as (g & σ1 & -> & Hg & Hxs).
  cbn [bind].
  destruct (Translate_plain fuel σ1 (Some g) translate _ Htr Hxs)
    as (σ2 & -> & Hys).
  cbn [bind]. exists g, σ2. split; [reflexivity|]. split; [exact Hg|].
  now rewrite Hys, map_map.
Qed.

Lemma NewTranslatedErrorGroup_composes_witness :
  exists g σ',
    NewTranslatedErrorGroup 0 (fun _ => Some boom) [Some (EError inner); None] empty_store
      = Ok (g, σ') /\
    g = 0 /\
    group_elems σ' (Some g) = Ok [set_Wrapped ErrUndefined (Some boom)].
Proof.
  apply (NewTranslatedErrorGroup_composes 0 empty_store (fun _ => Some boom)
           [Some (EError inner); None]).
  - intros x. reflexivity.
  - repeat constructor.
Defined.

(** ** Swap and Less *)

Lemma Swap_spec (σ : store) (g : option addr) (xs : list Error) (i j : nat)
    (xi xj : Error) :
  group_elems σ g = Ok xs ->
  xs !! i = Some xi ->
  xs !! j = Some xj ->
  exists σ',
    ErrorGroup_Swap g i j σ = Ok σ' /\
    group_elems σ' g = Ok (<[j := xi]> (<[i := xj]> xs)).
Proof.
  intros (a & G & -> & Ha & HG & Hxs)%group_elems_inv Hi Hj.
  unfold ErrorGroup_Swap. rewrite HG. cbn [bind].
  rewrite !(slice_index_elems _ _ _ _ Hxs), Hj, Hi. cbn [must bind].
  destruct (slice_set_spec σ (Errors G) i xj xs Hxs)
    as (σ1 & -> & Hxs1 & Hgr1 & _); [now apply lookup_lt_Some in Hi|].
  cbn [bind].
  destruct (slice_set_spec σ1 (Errors G) j xi _ Hxs1)
    as (σ2 & -> & Hxs2 & Hgr2 & _);
    [rewrite length_insert; now apply lookup_lt_Some in Hj|].
  exists σ2. split; [reflexivity|].
  unfold group_elems, get_group. rewrite Hgr2, Hgr1, Ha. exact Hxs2.
Qed.

Lemma swap_back (xs : list Error) (i j : nat) (xi xj : Error) :
  xs !! i = Some xi ->
  xs !! j = Some xj ->
  exists yi,
    <[j := xi]> (<[i := xj]> xs) !! i = Some yi /\
    <[j := xi]> (<[i := xj]> xs) !! j = Some xi /\
    <[j := yi]> (<[i := xi]> (<[j := xi]> (<[i := xj]> xs))) = xs.
Proof.
  intros Hi Hj.
  pose proof (lookup_lt_Some _ _ _ Hi) as Hli.
  pose proof (lookup_lt_Some _ _ _ Hj) as Hlj.
  destruct (decide (i = j)) as [->|Hne].
  - assert (xi = xj) as <- by congruence.
    exists xi. rewrite !(list_insert_id xs j xi) by assumption. auto.
  - exists xj. split; [|split].
    + rewrite list_lookup_insert_ne by auto. now apply list_lookup_insert_eq.
    + apply list_lookup_insert_eq. now rewrite length_insert.
    + apply list_eq. intros k.
      destruct (decide (k = j)) as [->|Hkj].
      * rewrite list_lookup_insert_eq by (now rewrite !length_insert). now rewrite Hj.
      * rewrite list_lookup_insert_ne by auto.
        destruct (decide (k = i)) as [->|Hki].
        -- rewrite list_lookup_insert_eq by (now rewrite !length_insert). now rewrite Hi.
        -- now rewrite !list_lookup_insert_ne by auto.
Qed.

(** X14: [Swap(i, j)] on indices within the group exchanges the two
    elements and leaves the others and the length as they were; a second
    [Swap(i, j)] restores the sequence; an index out of range panics. *)
Theorem Swap_exchanges (σ : store) (g : option addr) (xs : list Error) (i j : nat) :
  group_elems σ g = Ok xs ->
  (forall xi xj,
     xs !! i = Some xi -> xs !! j = Some xj ->
     exists σ',
       ErrorGroup_Swap g i j σ = Ok σ' /\
       group_elems σ' g = Ok (<[j := xi]> (<[i := xj]> xs)) /\
       exists σ'',
         ErrorGroup_Swap g i j σ' = Ok σ'' /\ group_elems σ'' g = Ok xs) /\
  (length xs <= i \/ length xs <= j -> ErrorGroup_Swap g i j σ = Panic).
Proof.
  intros Hxs. split.
  - intros xi xj Hi Hj.
    destruct (Swap_spec σ g xs i j xi xj Hxs Hi Hj) as (σ' & Hswap & Hxs').
    exists σ'. split; [exact Hswap|]. split; [exact Hxs'|].
    destruct (swap_back xs i j xi xj Hi Hj) as (yi & Hyi & Hyj & Hback).
    destruct (Swap_spec σ' g _ i j yi xi Hxs' Hyi Hyj) as (σ'' & Hswap' & Hxs'').
    exists σ''. split; [exact Hswap'|]. now rewrite Hxs'', Hback.
  - destruct (group_elems_inv _ _ _ Hxs) as (a & G & -> & Ha & HG & HxsG).
    intros Hout. unfold ErrorGroup_Swap. rewrite HG. cbn [bind].
    rewrite !(slice_index_elems _ _ _ _ HxsG).
    destruct (decide (length xs <= j)) as [Hj|Hj].
    + now rewrite (lookup_ge_None_2 xs j Hj).
    + destruct (xs !! j) as [xj|]; [|reflexivity]. cbn [must bind].
      rewrite (lookup_ge_None_2 xs i); [reflexivity|lia].
Qed.

Lemma Swap_exchanges_witness :
  exists σ',
    ErrorGroup_Swap (Some 1) 0 1 flat_store = Ok σ' /\
    group_elems σ' (Some 1)
      = Ok (<[1 := sample "a" (Some boom)]>
              (<[0 := sample "b" None]> [sample "a" (Some boom); sample "b" None])) /\
    exists σ'',
      ErrorGroup_Swap (Some 1) 0 1 σ' = Ok σ'' /\
      group_elems σ'' (Some 1) = Ok [sample "a" (Some boom); sample "b" None].
Proof.
  apply (proj1 (Swap_exchanges flat_store (Some 1)
                  [sample "a" (Some boom); sample "b" None] 0 1 eq_refl));
    reflexivity.
Defined.

Lemma ltb_asymmetric (s1 s2 : string) :
  String.ltb s1 s2 = true -> String.ltb s2 s1 = false.
Proof.
  unfold String.ltb. rewrite (String.compare_antisym s2 s1).
  destruct (String.compare s1 s2); simpl; congruence.
Qed.

Lemma ltb_irreflexive (s : string) : String.ltb s s = false.
Proof.
  unfold String.ltb. pose proof (String.compare_antisym s s) as H.
  destruct (String.compare s s); simpl in H; congruence.
Qed.

(** X15: [Less] is asymmetric and irreflexive: when [Less(i, j)] is true,
    [Less(j, i)] is false, and [Less(i, i)] is false whenever it
    returns. *)
Theorem Less_is_strict (fuel : nat) (σ : store) (g : option addr) (i j : nat) :
  (ErrorGroup_Less fuel σ g i j = Ok true -> ErrorGroup_Less fuel σ g j i = Ok false) /\
  (forall b, ErrorGroup_Less fuel σ g i i = Ok b -> b = false).
Proof.
  unfold ErrorGroup_Less. split.
  - intros H. inv_bind_as H G HG. inv_bind_as H xi Hxi. inv_bind_as H si Hsi.
    inv_bind_as H xj Hxj. inv_bind_as H sj Hsj. injection H as H.
    rewrite HG. cbn [bind]. rewrite Hxj. cbn [bind]. rewrite Hsj. cbn [bind].
    rewrite Hxi. cbn [bind]. rewrite Hsi. cbn [bind].
    now rewrite (ltb_asymmetric _ _ H).
  - intros b H. inv_bind_as H G HG. inv_bind_as H xi Hxi. inv_bind_as H si Hsi.
    inv_bind_as H xj Hxj. inv_bind_as H sj Hsj. injection H as <-.
    rewrite Hxi in Hxj. injection Hxj as <-. rewrite Hsi in Hsj. injection Hsj as <-.
    apply ltb_irreflexive.
Qed.

Lemma Less_is_strict_witness :
  ErrorGroup_Less 0 flat_store (Some 1) 1 0 = Ok false.
Proof.
  apply (proj1 (Less_is_strict 0 flat_store (Some 1) 0 1)).
  reflexivity.
Defined.

(** ** AsGroup on a chain of Errors with no other cause *)

Lemma terminal_None_plain (err : error) :
  terminal_from err = None -> plain err = true.
Proof.
  induction err as [e IH|p|c|id msg cause IH] using error_chain_ind;
    simpl; intros Ht; try discriminate.
  destruct (Wrapped e) as [w|]; [eauto|reflexivity].
Qed.

Lemma AsGroup_loop_no_terminal (g : addr) :
  forall fuel err σ xs,
    terminal err = None ->
    length (links err) <= S fuel ->
    group_elems σ (Some g) = Ok xs ->
    exists σ',
      AsGroup_loop fuel g err σ = Ok σ' /\
      group_elems σ' (Some g) = Ok (xs ++ tail (links err)).
Proof.
  induction fuel as [|fuel IH]; intros err σ xs Ht Hlen Hxs;
    unfold terminal in Ht; unfold links in *; simpl in Ht, Hlen |- *;
    destruct (Wrapped err) as [w|] eqn:Hw;
    try (exists σ; rewrite app_nil_r; now auto).
  - destruct w; simpl in Ht, Hlen; try discriminate. lia.
  - assert (Hplain : plain w = true) by now apply terminal_None_plain.
    destruct (Append_plain fuel (Some g) [w]) with (σ := σ) (xs := xs)
      as (σ1 & Happ & Hxs1); [now constructor|assumption|].
    simpl in Happ. rewrite Happ. cbn [bind].
    rewrite plain_as_Error by assumption. cbn [bind].
    destruct w as [e'|p|c|id msg cause]; try discriminate.
    simpl. destruct (IH e' σ1 (xs ++ [e'])) as (σ' & Hloop & Hxs').
    + exact Ht.
    + simpl in Hlen |- *. lia.
    + exact Hxs1.
    + exists σ'. split; [exact Hloop|]. rewrite Hxs'.
      unfold links. simpl. now rewrite <- app_assoc.
Qed.

(** X16: for an [Error] whose chain of directly wrapped [Error]s ends in
    an [Error] with no cause, [AsGroup] (given fuel for the length of the
    chain) returns a new group holding exactly the links of the chain,
    root first; for an [Error] with no cause, the group holds the receiver
    alone. *)
Theorem AsGroup_of_Error_chain (fuel : nat) (σ : store) (e : Error) :
  terminal e = None ->
  length (links e) <= S fuel ->
  exists g σ',
    Error_AsGroup fuel e σ = Ok (g, σ') /\
    g = length (groups σ) /\
    group_elems σ' (Some g) = Ok (links e).
Proof.
  intros Ht Hlen. unfold Error_AsGroup.
  assert (Hplain : plain (EError e) = true) by now apply terminal_None_plain.
  destruct (NewErrorGroup_plain fuel σ [Some (EError e)])
    as (g & σ1 & -> & Hg & Hxs); [now repeat constructor|].
  cbn [bind].
  destruct (AsGroup_loop_no_terminal g fuel e σ1 _ Ht Hlen Hxs)
    as (σ' & -> & Hxs').
  cbn [bind]. exists g, σ'. split; [reflexivity|]. split; [exact Hg|].
  rewrite Hxs'. unfold links. reflexivity.
Qed.

Lemma AsGroup_of_Error_chain_witness :
  exists g σ',
    Error_AsGroup 1 (sample "outer" (Some (EError inner))) empty_store = Ok (g, σ') /\
    g = 0 /\
    group_elems σ' (Some g) = Ok [sample "outer" (Some (EError inner)); inner].
Proof.
  apply (AsGroup_of_Error_chain 1 empty_store (sample "outer" (Some (EError inner)))).
  - reflexivity.
  - simpl. lia.
Defined.

(** ** Walking a chain *)

Lemma errorChain_Unwrap_cons (σ : store) (c : slice) (x y : Error) (xs : list Error) :
  slice_elems σ c = Ok (x :: y :: xs) ->
  errorChain_Unwrap c = Some (EChain (slice_tail c)).
Proof.
  intros H. pose proof (slice_elems_length _ _ _ H) as Hlen. simpl in Hlen.
  unfold errorChain_Unwrap. now rewrite <- Hlen.
Qed.

Lemma errorChain_Unwrap_last (σ : store) (c : slice) (x : Error) :
  slice_elems σ c = Ok [x] -> errorChain_Unwrap c = None.
Proof.
  intros H. pose proof (slice_elems_length _ _ _ H) as Hlen. simpl in Hlen.
  unfold errorChain_Unwrap. now rewrite <- Hlen.
Qed.

Lemma errorChain_As_Error_head (σ : store) (c : slice) (xs : list Error) :
  slice_elems σ c = Ok xs -> errorChain_As_Error σ c = Ok (head xs).
Proof.
  intros H. pose proof (slice_elems_length _ _ _ H) as Hlen.
  unfold errorChain_As_Error. rewrite (slice_index_elems _ _ _ _ H).
  destruct xs as [|x xs]; simpl in Hlen; rewrite <- Hlen; reflexivity.
Qed.

(** X17: unwrapping a chain over [xs] step by step visits the elements
    of [xs] in order, one per step: after [k] steps ([k] below the length)
    the chain is over the elements from index [k] on and [As] extracts the
    element at index [k]; after as many steps as there are elements,
    [Unwrap] has answered nil. *)
Theorem errorChain_walk (σ : store) (xs : list Error) :
  forall (c : slice),
    slice_elems σ c = Ok xs ->
    xs <> [] ->
    (forall k x,
       xs !! k = Some x ->
       exists c',
         unwrap_times k (Some (EChain c)) = Some (EChain c') /\
         slice_elems σ c' = Ok (drop k xs) /\
         errorChain_As_Error σ c' = Ok (Some x)) /\
    unwrap_times (length xs) (Some (EChain c)) = None.
Proof.
  induction xs as [|x xs IH]; intros c Hxs Hne; [congruence|].
  destruct xs as [|y xs].
  - split.
    + intros [|k] x' Hk; [|discriminate]. injection Hk as <-.
      exists c. split; [reflexivity|]. split; [exact Hxs|].
      now rewrite (errorChain_As_Error_head _ _ _ Hxs).
    + simpl. now rewrite (errorChain_Unwrap_last _ _ _ Hxs).
  - pose proof (slice_tail_elems _ _ _ _ Hxs) as Htail.
    destruct (IH (slice_tail c) Htail ltac:(discriminate)) as [IHk IHend].
    split.
    + intros [|k] x' Hk.
      * injection Hk as <-. exists c. split; [reflexivity|].
        split; [exact Hxs|]. now rewrite (errorChain_As_Error_head _ _ _ Hxs).
      * cbn [unwrap_times]. rewrite (errorChain_Unwrap_cons _ _ _ _ _ Hxs).
        apply (IHk k x' Hk).
    + cbn [length unwrap_times]. rewrite (errorChain_Unwrap_cons _ _ _ _ _ Hxs).
      exact IHend.
Qed.

Lemma errorChain_walk_witness :
  exists c',
    unwrap_times 1 (Some (EChain (mkSlice (Some 0) 0 2))) = Some (EChain c') /\
    slice_elems two_store c' = Ok (drop 1 [sample "a" None; sample "b" None]) /\
    errorChain_As_Error two_store c' = Ok (Some (sample "b" None)).
Proof.
  apply (proj1 (errorChain_walk two_store [sample "a" None; sample "b" None]
                  (mkSlice (Some 0) 0 2) eq_refl ltac:(discriminate)) 1).
  reflexivity.
Defined.

(** ** errors.Is on plain errors, chains and groups *)

Lemma is_error_EError (fuel : nat) (σ : store) (target : error) (e : Error) :
  is_error fuel σ target (EError e) =
  if comparable target && iface_eqb (EError e) target then Ok true
  else
    let* b := Error_Is σ e (Some target) in
    if b then Ok true
    else
      match Wrapped e with
      | Some w => is_error fuel σ target w
      | None => Ok false
      end.
Proof. destruct fuel; reflexivity. Qed.

Lemma is_error_EForeign (fuel : nat) (σ : store) (target : error)
    (id : nat) (msg : string) (cause : option error) :
  is_error fuel σ target (EForeign id msg cause) =
  if comparable target && iface_eqb (EForeign id msg cause) target then Ok true
  else
    match cause with
    | Some w => is_error fuel σ target w
    | None => Ok false
    end.
Proof. destruct fuel; reflexivity. Qed.

Lemma is_error_EChain (fuel : nat) (σ : store) (target : error) (c : slice) :
  is_error fuel σ target (EChain c) =
  if s_len c =? 0 then Ok false
  else
    match fuel with
    | 0 => OutOfFuel
    | S fuel' =>
        let* x := slice_index σ c 0 in
        let* b := is_error fuel' σ target (EError x) in
        if b then Ok true
        else
          match errorChain_Unwrap c with
          | Some next => is_error fuel' σ target next
          | None => Ok false
          end
    end.
Proof.
  destruct fuel; simpl; rewrite andb_false_r; reflexivity.
Qed.

Lemma is_error_EGroup (fuel : nat) (σ : store) (target : error) (g : option addr) :
  iface_eqb (EGroup g) target = false ->
  is_error fuel σ target (EGroup g) =
  let* (next, σ') := ErrorGroup_Unwrap g σ in
  match next with
  | Some n =>
      match fuel with
      | 0 => OutOfFuel
      | S fuel' => is_error fuel' σ' target n
      end
  | None => Ok false
  end.
Proof.
  intros Hne. destruct fuel; simpl; simpl in Hne; rewrite Hne, andb_false_r;
    reflexivity.
Qed.

Lemma is_error_plain (fuel : nat) (σ : store) (target err : error) :
  plain target = true ->
  plain err = true ->
  is_error fuel σ target err = Ok (is_plain target err).
Proof.
  intros Ht. induction err as [e IH|p|c|id msg cause IH] using error_chain_ind;
    intros Hp; simpl in Hp; try discriminate.
  - rewrite is_error_EError. cbn [is_plain].
    destruct (comparable target && iface_eqb (EError e) target); [reflexivity|].
    unfold Error_Is, errors_As_Error. rewrite plain_as_Error by assumption.
    cbn [orb].
    destruct (first_Error target) as [t|]; cbn [bind];
      [destruct (Error_Equal e t); [reflexivity|]|]; cbn [orb];
      (destruct (Wrapped e) as [w|]; [now apply IH|reflexivity]).
  - rewrite is_error_EForeign. cbn [is_plain].
    destruct (comparable target && iface_eqb (EForeign id msg cause) target);
      [reflexivity|].
    cbn [orb]. destruct cause as [w|]; [now apply IH|reflexivity].
Qed.

Lemma is_error_chain (σ : store) (target : error) (xs : list Error) :
  plain target = true ->
  Forall (fun x => plain (EError x) = true) xs ->
  forall fuel c,
    slice_elems σ c = Ok xs ->
    length xs <= fuel ->
    is_error fuel σ target (EChain c)
      = Ok (existsb (fun x => is_plain target (EError x)) xs).
Proof.
  intros Ht Hplain. induction Hplain as [|x xs Hx _ IH]; intros fuel c Hxs Hfuel;
    pose proof (slice_elems_length _ _ _ Hxs) as Hlen; simpl in Hlen;
    rewrite is_error_EChain, <- Hlen; cbn [Nat.eqb existsb].
  - reflexivity.
  - destruct fuel as [|fuel]; [simpl in Hfuel; lia|].
    rewrite (slice_index_elems _ _ _ _ Hxs). cbn [lookup list_lookup must bind].
    rewrite (is_error_plain fuel σ target (EError x) Ht Hx). cbn [bind].
    destruct (is_plain target (EError x)); [reflexivity|]. cbn [orb].
    destruct xs as [|y xs].
    + now rewrite (errorChain_Unwrap_last _ _ _ Hxs).
    + rewrite (errorChain_Unwrap_cons _ _ _ _ _ Hxs).
      apply IH; [now apply (slice_tail_elems _ _ _ _ Hxs)|simpl in Hfuel |- *; lia].
Qed.

(** X18: [errors.Is] on a group whose elements are plain, against a
    plain target, answers (given fuel for the number of elements) whether
    some element matches the target; each element is matched on its own,
    along its own unwrap chain. *)
Theorem errors_Is_on_group (fuel : nat) (σ : store) (g : option addr)
    (target : error) (xs : list Error) :
  group_elems σ g = Ok xs ->
  Forall (fun x => plain (EError x) = true) xs ->
  plain target = true ->
  S (length xs) <= fuel ->
  errors_Is fuel σ (Some (EGroup g)) (Some target)
    = Ok (existsb (fun x => is_plain target (EError x)) xs).
Proof.
  intros Hxs Hplain Ht Hfuel. unfold errors_Is.
  destruct (group_elems_inv _ _ _ Hxs) as (a & G & -> & Ha & HG & HxsG).
  pose proof (slice_elems_length _ _ _ HxsG) as Hlen.
  rewrite is_error_EGroup by (destruct target; simpl in Ht; try discriminate; reflexivity).
  destruct fuel as [|fuel]; [lia|].
  destruct xs as [|x [|y xs]].
  - unfold ErrorGroup_Unwrap. rewrite HG. cbn [bind]. now rewrite <- Hlen.
  - unfold ErrorGroup_Unwrap. rewrite HG. cbn [bind]. rewrite <- Hlen.
    cbn [length Nat.eqb]. rewrite (slice_index_elems _ _ _ _ HxsG). cbn [lookup list_lookup must bind].
    rewrite is_error_plain; [|assumption|now inversion Hplain].
    cbn [existsb]. now rewrite orb_false_r.
  - destruct (ErrorGroup_Unwrap_many σ a G (x :: y :: xs) Ha HxsG)
      as (σ1 & -> & Harr & _); [simpl; lia|].
    cbn [bind]. apply is_error_chain; [assumption|assumption| |lia].
    apply (slice_elems_whole σ1 (length (arrays σ)) (x :: y :: xs)).
    rewrite Harr. now apply list_lookup_middle.
Qed.

Lemma errors_Is_on_group_witness :
  errors_Is 3 flat_store (Some (EGroup (Some 1))) (Some boom)
    = Ok (existsb (fun x => is_plain boom (EError x))
                  [sample "a" (Some boom); sample "b" None]).
Proof.
  apply (errors_Is_on_group 3 flat_store (Some 1) boom
           [sample "a" (Some boom); sample "b" None]).
  - reflexivity.
  - repeat constructor.
  - reflexivity.
  - simpl. lia.
Defined.

(** ** Format *)

Lemma push_Formatter (a : addr) (e : Error) (σ σ' : store) (G : ErrorGroup) :
  push (Some a) e σ = Ok σ' ->
  groups σ !! a = Some G ->
  exists G', groups σ' !! a = Some G' /\ Formatter G' = Formatter G.
Proof.
  intros Hpush Ha. unfold push in Hpush.
  inv_bind_as Hpush G0 HG0. simpl in HG0. rewrite Ha in HG0. injection HG0 as <-.
  inv_bind_as Hpush p Happ. destruct p as [s' σ1].
  assert (Hgr : groups σ1 = groups σ).
  { pose proof Happ as Happ'. unfold slice_append in Happ'.
    inv_bind_as Happ' xs Hxs.
    destruct (slice_append_spec σ (Errors G) e xs Hxs) as (s2 & σ2 & Happ2 & _ & Hgr & _).
    rewrite Happ in Happ2. now injection Happ2 as _ <-. }
  unfold set_Errors, get_group in Hpush. rewrite Hgr, Ha in Hpush.
  cbn [must bind] in Hpush. injection Hpush as <-.
  exists (mkErrorGroup s' (Formatter G)). split; [|reflexivity]. cbn [groups].
  apply list_lookup_insert_eq. now apply lookup_lt_Some in Ha.
Qed.

Lemma NewErrorGroup_Formatter (fuel : nat) (errs : list (option error))
    (σ σ' : store) (g : addr) :
  NewErrorGroup fuel errs σ = Ok (g, σ') ->
  exists G, groups σ' !! g = Some G /\ Formatter G = FmtDefault.
Proof.
  unfold NewErrorGroup, make_slice, new_group. cbn [groups].
  intros H. inv_bind_as H σ3 Happ. injection H as <- <-.
  revert Happ.
  apply (Append_preserves
           (fun s => exists G, groups s !! length (groups σ) = Some G /\
                               Formatter G = FmtDefault)).
  - intros s e s' (G & HG & Hfmt) Hpush.
    destruct (push_Formatter _ _ _ _ _ Hpush HG) as (G' & HG' & Hfmt').
    exists G'. split; [exact HG'|congruence].
  - eexists. split; [cbn [groups]; now apply list_lookup_middle|reflexivity].
Qed.

Lemma Error_Error_no_cause (fuel : nat) (σ : store) (e : Error) :
  Wrapped e = None ->
  Error_Error fuel σ e
    = Ok ("[" ++ Namespace e ++ ":" ++ Code e ++ "] " ++ Message e)%string.
Proof.
  intros Hw. unfold Error_Error. destruct fuel; simpl; now rewrite Hw.
Qed.

Lemma error_Error_EGroup (fuel : nat) (σ : store) (g : option addr) :
  error_Error fuel σ (EGroup g) =
  let* G := get_group σ g in
  let* errors := slice_elems σ (Errors G) in
  match Formatter G with
  | FmtNil => Panic
  | FmtCustom f => Ok (f errors)
  | FmtDefault =>
      ErrorGroupFormatterDefault
        (fun x =>
           match fuel with
           | 0 => OutOfFuel
           | S fuel' => error_Error fuel' σ (EError x)
           end)
        errors
  end.
Proof. destruct fuel; reflexivity. Qed.

(** X19: for an [Error] with no cause, the verbs [v] (with or without
    the [+] flag), [s] and [q] all write the same text,
    ["[namespace:code] message"]; any other verb writes nothing, for every
    [Error]. *)
Theorem Format_without_cause (fuel : nat) (σ : store) (e : Error) (plus : bool) :
  (Wrapped e = None ->
   let text := ("[" ++ Namespace e ++ ":" ++ Code e ++ "] " ++ Message e)%string in
   (exists σ', Error_Format (S fuel) e "v" plus σ = Ok (text, σ')) /\
   Error_Format fuel e "s" plus σ = Ok (text, σ) /\
   Error_Format fuel e "q" plus σ = Ok (text, σ)) /\
  (forall verb : ascii,
     verb <> "v"%char -> verb <> "s"%char -> verb <> "q"%char ->
     Error_Format fuel e verb plus σ = Ok ("", σ)).
Proof.
  split.
  - intros Hw text. split; [|split].
    + unfold Error_Format. cbn [Ascii.eqb Bool.eqb]. destruct plus.
      * unfold Error_AsGroup.
        destruct (NewErrorGroup_plain (S fuel) σ [Some (EError e)])
          as (g & σ1 & Hnew & _ & Hxs).
        { repeat constructor. simpl. now rewrite Hw. }
        rewrite Hnew. cbn [bind].
        destruct (NewErrorGroup_Formatter _ _ _ _ _ Hnew) as (G & HG & Hfmt).
        assert (Hloop : AsGroup_loop (S fuel) g e σ1 = Ok σ1)
          by (simpl; now rewrite Hw).
        rewrite Hloop. cbn [bind]. exists σ1.
        unfold ErrorGroup_Error. rewrite error_Error_EGroup.
        unfold group_elems in Hxs. unfold get_group in *. rewrite HG in Hxs |- *.
        cbn [must bind] in Hxs |- *. rewrite Hxs, Hfmt. cbn [bind map non_nil omap].
        change (map narrowed (non_nil [Some (EError e)])) with [e].
        cbn [ErrorGroupFormatterDefault].
        change (error_Error fuel σ1 (EError e)) with (Error_Error fuel σ1 e).
        now rewrite (Error_Error_no_cause fuel σ1 e Hw).
      * exists σ. now rewrite (Error_Error_no_cause (S fuel) σ e Hw).
    + unfold Error_Format. cbn [Ascii.eqb Bool.eqb].
      now rewrite (Error_Error_no_cause fuel σ e Hw).
    + unfold Error_Format. cbn [Ascii.eqb Bool.eqb].
      now rewrite (Error_Error_no_cause fuel σ e Hw).
  - intros verb Hv Hs Hq. unfold Error_Format.
    apply Ascii.eqb_neq in Hv, Hs, Hq. now rewrite Hv, Hs, Hq.
Qed.

Lemma Format_without_cause_witness :
  exists σ',
    Error_Format 1 (sample "a" None) "v" true empty_store
      = Ok ("[ns:a] message", σ').
Proof.
  apply (proj1 (proj1 (Format_without_cause 0 empty_store (sample "a" None) true)
                  eq_refl)).
Defined.

(** ** slices.go *)

Lemma SliceFilter_foldl {T : Type} (predicate : T -> bool) (items : list T)
    (filtered : valslice T) :
  foldl (fun filtered item =>
           if predicate item then Some (valslice_elems filtered ++ [item])
           else filtered)
        filtered items
  = match List.filter predicate items with
    | [] => filtered
    | kept => Some (valslice_elems filtered ++ kept)
    end.
Proof.
  revert filtered. induction items as [|x items IH]; intros filtered.
  - reflexivity.
  - cbn [foldl List.filter]. rewrite IH. destruct (predicate x).
    + destruct (List.filter predicate items); [reflexivity|].
      cbn [valslice_elems]. now rewrite <- app_assoc.
    + reflexivity.
Qed.

Lemma SliceFilter_eq {T : Type} (input : valslice T) (predicate : T -> bool) :
  SliceFilter input predicate = variadic (List.filter predicate (valslice_elems input)).
Proof.
  unfold SliceFilter. rewrite SliceFilter_foldl.
  now destruct (List.filter predicate (valslice_elems input)).
Qed.

Lemma variadic_elems {A : Type} (l : list A) : valslice_elems (variadic l) = l.
Proof. now destruct l. Qed.

Lemma variadic_None {A : Type} (l : list A) : variadic l = None <-> l = [].
Proof. destruct l; simpl; split; congruence. Qed.

Lemma filter_nil_iff {A : Type} (p : A -> bool) (l : list A) :
  List.filter p l = [] <-> List.Forall (fun x => p x = false) l.
Proof.
  induction l as [|x l IH]; simpl.
  - split; [constructor|reflexivity].
  - destruct (p x) eqn:Hx.
    + split; [discriminate|]. intros H. inversion H. congruence.
    + rewrite IH. split; [now constructor|]. intros H. now inversion H.
Qed.

Lemma filter_filter_same {A : Type} (p : A -> bool) (l : list A) :
  List.filter p (List.filter p l) = List.filter p l.
Proof.
  induction l as [|x l IH]; simpl; [reflexivity|].
  destruct (p x) eqn:Hx; simpl; [rewrite Hx; now f_equal|exact IH].
Qed.

Lemma SliceFlatten_foldl {T : Type} (slices : list (valslice T))
    (flattened : valslice T) :
  foldl (fun flattened slice => valslice_append flattened (valslice_elems slice))
        flattened slices
  = valslice_append flattened (concat (map valslice_elems slices)).
Proof.
  revert flattened. induction slices as [|s slices IH]; intros flattened.
  - reflexivity.
  - cbn [foldl map concat]. rewrite IH. apply valslice_append_assoc.
Qed.

Lemma SliceFlatten_eq {T : Type} (slices : list (valslice T)) :
  SliceFlatten slices = variadic (concat (map valslice_elems slices)).
Proof.
  unfold SliceFlatten. rewrite SliceFlatten_foldl.
  now destruct (concat (map valslice_elems slices)).
Qed.

Lemma concat_nil_iff {A : Type} (ls : list (list A)) :
  concat ls = [] <-> List.Forall (fun l => l = []) ls.
Proof.
  induction ls as [|l ls IH]; simpl.
  - split; [constructor|reflexivity].
  - split.
    + intros H. apply app_eq_nil in H as [-> H]. constructor; [reflexivity|now apply IH].
    + intros H. inversion H; subst. simpl. now apply IH.
Qed.

Lemma filter_concat {A : Type} (p : A -> bool) (ls : list (list A)) :
  List.filter p (concat ls) = concat (map (List.filter p) ls).
Proof.
  induction ls as [|l ls IH]; simpl; [reflexivity|].
  now rewrite List.filter_app, IH.
Qed.

(** X20: [SliceFilter] returns the items of the input that satisfy the
    predicate, in the input's order; the result is the nil slice exactly
    when no item satisfies it (also for a non-nil input); filtering the
    result again by the same predicate changes nothing. *)
Theorem SliceFilter_keeps_matching_items {T : Type} (input : valslice T)
    (predicate : T -> bool) :
  valslice_elems (SliceFilter input predicate)
    = List.filter predicate (valslice_elems input) /\
  (SliceFilter input predicate = None <->
   List.Forall (fun item => predicate item = false) (valslice_elems input)) /\
  SliceFilter (SliceFilter input predicate) predicate = SliceFilter input predicate.
Proof.
  rewrite !SliceFilter_eq. split; [|split].
  - apply variadic_elems.
  - rewrite variadic_None. apply filter_nil_iff.
  - now rewrite variadic_elems, filter_filter_same.
Qed.

(** X21: [SliceFlatten] returns the items of its arguments one after the
    other; the result is the nil slice exactly when every argument is
    empty, whether nil or not. *)
Theorem SliceFlatten_concatenates {T : Type} (slices : list (valslice T)) :
  valslice_elems (SliceFlatten slices) = concat (map valslice_elems slices) /\
  (SliceFlatten slices = None <->
   List.Forall (fun slice => valslice_elems slice = []) slices).
Proof.
  rewrite SliceFlatten_eq. split.
  - apply variadic_elems.
  - rewrite variadic_None, concat_nil_iff, List.Forall_map. reflexivity.
Qed.

(** X22: filtering a flattened slice gives the same slice, nil or not, as
    flattening the slices filtered one by one. *)
Theorem SliceFilter_of_SliceFlatten {T : Type} (slices : list (valslice T))
    (predicate : T -> bool) :
  SliceFilter (SliceFlatten slices) predicate
    = SliceFlatten (map (fun slice => SliceFilter slice predicate) slices).
Proof.
  rewrite SliceFilter_eq, !SliceFlatten_eq, variadic_elems, filter_concat.
  rewrite !map_map. f_equal. f_equal. apply map_ext. intros s.
  now rewrite SliceFilter_eq, variadic_elems.
Qed.

Section SliceToMapProperties.
Context {K V : Type} `{Countable K}.
Variable key : V -> K.

Lemma SliceToMap_foldl (items : list V) (result : gmap K V) (k : K) :
  foldl (fun result item => <[key item := item]> result) result items !! k
  = match last (List.filter (fun v => bool_decide (key v = k)) items) with
    | Some v => Some v
    | None => result !! k
    end.
Proof.
  revert result. induction items as [|x items IH]; intros result.
  - reflexivity.
  - cbn [foldl List.filter]. rewrite IH. clear IH.
    destruct (bool_decide (key x = k)) eqn:Hx.
    + apply bool_decide_eq_true in Hx.
      destruct (List.filter (fun v => bool_decide (key v = k)) items) as [|y ys] eqn:Hf.
      * simpl. subst k. apply lookup_insert_eq.
      * rewrite last_cons_cons. destruct (last (y :: ys)) eqn:Hl; [reflexivity|].
        apply last_None in Hl. discriminate.
    + apply bool_decide_eq_false in Hx.
      destruct (last (List.filter (fun v => bool_decide (key v = k)) items));
        [reflexivity|]. now apply lookup_insert_ne.
Qed.

Lemma filter_key_NoDup (items : list V) (v : V) :
  NoDup (map key items) -> In v items ->
  List.filter (fun w => bool_decide (key w = key v)) items = [v].
Proof.
  induction items as [|x items IH]; intros Hnd Hin; [destruct Hin|].
  cbn [map] in Hnd. apply NoDup_cons in Hnd as [Hx Hnd]. cbn [List.filter].
  destruct Hin as [->|Hin].
  - rewrite bool_decide_eq_true_2 by reflexivity. f_equal.
    apply filter_nil_iff. apply List.Forall_forall. intros w Hw.
    apply bool_decide_eq_false_2. intros Heq. apply Hx.
    rewrite <- Heq. apply list_elem_of_In, in_map, Hw.
  - rewrite bool_decide_eq_false_2; [now apply IH|].
    intros Heq. apply Hx. rewrite Heq. apply list_elem_of_In, in_map, Hin.
Qed.

Lemma SliceToMap_size_foldl (items : list V) (result : gmap K V) :
  NoDup (map key items) ->
  (forall v, In v items -> result !! key v = None) ->
  size (foldl (fun result item => <[key item := item]> result) result items)
  = size result + length items.
Proof.
  revert result. induction items as [|x items IH]; intros result Hnd Hfresh.
  - simpl. lia.
  - cbn [map] in Hnd. apply NoDup_cons in Hnd as [Hx Hnd]. cbn [foldl].
    rewrite IH; [|exact Hnd|].
    + rewrite map_size_insert_None by (apply Hfresh; now left). simpl. lia.
    + intros v Hv. rewrite lookup_insert_ne; [apply Hfresh; now right|].
      intros Heq. apply Hx. rewrite Heq. apply list_elem_of_In, in_map, Hv.
Qed.

(** X23: in the map [SliceToMap] returns, a key holds the last item of
    the input with that key, and no value when no item has it. *)
Theorem SliceToMap_last_item_wins (input : valslice V) (k : K) :
  SliceToMap input key !! k
  = last (List.filter (fun v => bool_decide (key v = k)) (valslice_elems input)).
Proof.
  unfold SliceToMap. rewrite SliceToMap_foldl, lookup_empty.
  now destruct (last _).
Qed.

(** X24: when the items of the input have pairwise different keys,
    [SliceToMap] holds every item under its key and has as many entries
    as the input has items. *)
Theorem SliceToMap_of_distinct_keys (input : valslice V) :
  NoDup (map key (valslice_elems input)) ->
  (forall v, In v (valslice_elems input) -> SliceToMap input key !! key v = Some v) /\
  size (SliceToMap input key) = length (valslice_elems input).
Proof.
  intros Hnd. split.
  - intros v Hv. unfold SliceToMap. rewrite SliceToMap_foldl.
    now rewrite (filter_key_NoDup _ _ Hnd Hv).
  - unfold SliceToMap. rewrite SliceToMap_size_foldl; [now rewrite map_size_empty|exact Hnd|].
    intros v _. apply lookup_empty.
Qed.
End SliceToMapProperties.

Lemma SliceToMap_of_distinct_keys_witness :
  (forall v, In v [("a", 1); ("b", 2)] ->
     SliceToMap (Some [("a", 1); ("b", 2)]) (fst : string * nat -> string) !! fst v
       = Some v) /\
  size (SliceToMap (Some [("a", 1); ("b", 2)]) (fst : string * nat -> string)) = 2.
Proof.
  apply (SliceToMap_of_distinct_keys fst (Some [("a", 1); ("b", 2)])).
  apply NoDup_cons. split; [|apply NoDup_singleton].
  intros Hin. apply list_elem_of_singleton in Hin. discriminate.
Defined.

(** ** The enum FakeStrategy *)

Lemma FakeStrategyValue_named (name : string) :
  In name FakeStrategyNames ->
  @lookup string FakeStrategy _ _ name _FakeStrategyValue = Some name.
Proof.
  intros Hin. simpl in Hin.
  repeat (destruct Hin as [<-|Hin]; [vm_compute; reflexivity|]).
  destruct Hin.
Qed.

Lemma FakeStrategyValue_unnamed (name : string) :
  ~ In name FakeStrategyNames ->
  @lookup string FakeStrategy _ _ name _FakeStrategyValue = None.
Proof.
  intros Hnot. unfold _FakeStrategyValue.
  repeat (rewrite lookup_insert_ne;
          [|intros <-; apply Hnot; simpl; tauto]).
  apply lookup_empty.
Qed.

Lemma FakeStrategyNames_dec (name : string) :
  {In name FakeStrategyNames} + {~ In name FakeStrategyNames}.
Proof. apply in_dec, string_dec. Qed.

(** X25: [ParseFakeStrategy] accepts exactly the names of
    [FakeStrategyNames] and returns the name itself with a nil error; for
    any other name it returns the empty value and an error that
    [errors.Is] matches with [ErrInvalidFakeStrategy] and whose text is the
    name, [" is "] and the text of [ErrInvalidFakeStrategy]. *)
Theorem ParseFakeStrategy_accepts_the_names (invalid fresh : nat) (name : string)
    (fuel : nat) (σ : store) :
  (In name FakeStrategyNames ->
   ParseFakeStrategy invalid fresh name = (name, None)) /\
  (~ In name FakeStrategyNames ->
   exists err,
     ParseFakeStrategy invalid fresh name = ("", Some err) /\
     errors_Is fuel σ (Some err) (Some (ErrInvalidFakeStrategy invalid)) = Ok true /\
     error_Error fuel σ err
       = Ok (name ++ " is " ++ ErrInvalidFakeStrategy_text)%string).
Proof.
  split; intros Hin; unfold ParseFakeStrategy.
  - now rewrite (FakeStrategyValue_named name Hin).
  - rewrite (FakeStrategyValue_unnamed name Hin). eexists. split; [reflexivity|].
    split.
    + unfold errors_Is. rewrite is_error_EForeign.
      destruct (comparable _ && iface_eqb _ _); [reflexivity|].
      unfold ErrInvalidFakeStrategy. rewrite is_error_EForeign.
      cbn [comparable iface_eqb andb]. now rewrite Nat.eqb_refl.
    + destruct fuel; reflexivity.
Qed.

Lemma ParseFakeStrategy_accepts_the_names_witness :
  ParseFakeStrategy 0 1 "random_range" = ("random_range", None) /\
  exists err,
    ParseFakeStrategy 0 1 "Random" = ("", Some err) /\
    errors_Is 0 empty_store (Some err) (Some (ErrInvalidFakeStrategy 0)) = Ok true /\
    error_Error 0 empty_store err
      = Ok ("Random is " ++ ErrInvalidFakeStrategy_text)%string.
Proof.
  split.
  - apply (proj1 (ParseFakeStrategy_accepts_the_names 0 1 "random_range" 0 empty_store)).
    simpl. tauto.
  - apply (proj2 (ParseFakeStrategy_accepts_the_names 0 1 "Random" 0 empty_store)).
    simpl. intros H. repeat (destruct H as [H|H]; [discriminate H|]). exact H.
Defined.

(** X26: [IsValid] holds exactly of the values in [FakeStrategyNames]. *)
Theorem IsValid_iff_named (invalid fresh : nat) (x : FakeStrategy) :
  FakeStrategy_IsValid invalid fresh x = true <-> In x FakeStrategyNames.
Proof.
  unfold FakeStrategy_IsValid, FakeStrategy_String, ParseFakeStrategy.
  destruct (FakeStrategyNames_dec x) as [Hin|Hnot].
  - rewrite (FakeStrategyValue_named x Hin). cbn [snd].
    split; [intros _; exact Hin|reflexivity].
  - rewrite (FakeStrategyValue_unnamed x Hnot). cbn [snd].
    split; [discriminate|intros Hin; destruct (Hnot Hin)].
Qed.

(** X27: [MarshalText] never fails, and [UnmarshalText] on the bytes it
    returns for a valid value stores that value in the receiver and
    returns nil; on bytes that are not a name, [UnmarshalText] returns an
    error and leaves the receiver as it was. *)
Theorem Marshal_Unmarshal_round_trip (invalid fresh : nat) (x y : FakeStrategy)
    (text : list Byte.byte) :
  snd (FakeStrategy_MarshalText x) = None /\
  (In x FakeStrategyNames ->
   FakeStrategy_UnmarshalText invalid fresh y (fst (FakeStrategy_MarshalText x))
     = (x, None)) /\
  (~ In (string_of_list_byte text) FakeStrategyNames ->
   exists err, FakeStrategy_UnmarshalText invalid fresh y text = (y, Some err)).
Proof.
  split; [reflexivity|]. split.
  - intros Hin. unfold FakeStrategy_UnmarshalText, FakeStrategy_MarshalText, ParseFakeStrategy.
    cbn [fst]. rewrite string_of_list_byte_of_string.
    now rewrite (FakeStrategyValue_named x Hin).
  - intros Hnot. unfold FakeStrategy_UnmarshalText, ParseFakeStrategy.
    rewrite (FakeStrategyValue_unnamed _ Hnot). eexists. reflexivity.
Qed.

Lemma Marshal_Unmarshal_round_trip_witness :
  FakeStrategy_UnmarshalText 0 1 FakeStrategyRandom
    (fst (FakeStrategy_MarshalText FakeStrategyStateful))
    = (FakeStrategyStateful, None) /\
  exists err,
    FakeStrategy_UnmarshalText 0 1 FakeStrategyRandom [Byte.x58] = (FakeStrategyRandom, Some err).
Proof.
  pose proof (Marshal_Unmarshal_round_trip 0 1 FakeStrategyStateful FakeStrategyRandom
                [Byte.x58]) as (_ & Hvalid & Hinvalid).
  split.
  - apply Hvalid. simpl. tauto.
  - apply Hinvalid. simpl. intros H.
    repeat (destruct H as [H|H]; [discriminate H|]). exact H.
Defined.
